(** * Recast span filters (Recast/Source/RecastFilter.cpp)

    A shallow embedding of the three heightfield filters
    [rcFilterLowHangingWalkableObstacles], [rcFilterLedgeSpans] and
    [rcFilterWalkableLowHeightSpans], and the properties of them that the
    specification states.

    Modelling conventions.
    - C++ [int] values are integers of [Z].  A span bound is an unsigned
      bit-field, between 0 and [MAX_HEIGHT], cast to [int]: a difference of
      two span bounds, and a minimum of them minus a maximum, is exact in
      [int] and is written with the operations of [Z].  The operations of
      the ledge scan that take [walkableClimb] can leave the range of a
      32-bit [int]: [-walkableClimb] and [-walkableClimb - bot], also as
      the virtual span's [nbot - bot].  They are [int_neg] and [int_sub],
      which wrap around as the compiled two's-complement code does.  The
      theorems that speak of their values in the integers carry the
      hypotheses [fits_int] under which nothing wraps;
      [ledge_arith_fits_int] gives these for span bounds in range and a
      climb of at most 2^30.
    - A column (the chain [s, s->next, ...]) is the list of its spans,
      bottom first; a span pointer is a pair of a column index and a
      position in the chain; [s->next] is the following position.
    - The heightfield is the mutable store.  Every loop body takes the store
      and returns the store: reads go through the current store, writes are
      [set_area].  Nothing is cached between iterations, so a write is seen
      by every later read, as in the in-place C++ code. *)

From Stdlib Require Import ZArith Lia Bool.
From stdpp Require Import base tactics numbers option list.

Local Open Scope Z_scope.

(** ** What Recast.h supplies *)

(** Modelled from the spec: Recast.h is not among the sources.  It supplies
    the reserved area id meaning "not walkable" and the table of the four
    cardinal neighbour offsets.  The filters are embedded over any such
    header; [recast_h] below is the one of the Recast distribution. *)
Class RecastHeader := {
  RC_NULL_AREA : Z;
  rcGetDirOffsetX : Z → Z;
  rcGetDirOffsetY : Z → Z
}.

(** Modelled from the spec: a header with a fixed table of the four
    cardinal offsets, whose order the specification leaves open.  This one
    has the values of the Recast distribution: [RC_NULL_AREA = 0] and the
    offsets -x, +y, +x, -y for the directions 0..3. *)
Definition recast_h : RecastHeader := {|
  RC_NULL_AREA := 0;
  rcGetDirOffsetX := λ dir,
    match dir with 0 => -1 | 1 => 0 | 2 => 1 | _ => 0 end;
  rcGetDirOffsetY := λ dir,
    match dir with 0 => 0 | 1 => 1 | 2 => 0 | _ => -1 end
|}.

(** Modelled from the spec: the helper templates of Recast.h,
    [rcMin(a,b) = a < b ? a : b], [rcMax(a,b) = a > b ? a : b] and
    [rcAbs(a) = a < 0 ? -a : a]. *)
Definition rcMin (a b : Z) : Z := if a <? b then a else b.
Definition rcMax (a b : Z) : Z := if a >? b then a else b.
Definition rcAbs (a : Z) : Z := if a <? 0 then - a else a.

(** ** Data model *)

(** Modelled from the spec: [rcSpan] of Recast.h, without its [next] link,
    which is the position in the column list. *)
Record rcSpan := Span { smin : Z; smax : Z; area : Z }.

(** Modelled from the spec: [rcHeightfield] of Recast.h.  Only the fields
    the filters read are kept: the grid size and the [width*height] column
    heads, column [(x, y)] at index [x + y*width]. *)
Record rcHeightfield := Heightfield {
  width : Z;
  height : Z;
  spans : list (list rcSpan)
}.

Definition MAX_HEIGHT : Z := 0xffff.

(** The values of a 32-bit [int]. *)
Definition fits_int (z : Z) : Prop := - 2 ^ 31 ≤ z < 2 ^ 31.

(** The 32-bit [int] that a result is stored as. *)
Definition int_wrap (z : Z) : Z := (z + 2 ^ 31) `mod` 2 ^ 32 - 2 ^ 31.

(** [-a] in [int]: [INT_MIN] has no opposite and is its own negation. *)
Definition int_neg (a : Z) : Z := if a =? - 2 ^ 31 then a else - a.

(** [a - b] in [int]. *)
Definition int_sub (a b : Z) : Z := int_wrap (a - b).

(** [solid.spans[i]]: the chain that starts at column head [i].  The C++
    array has [width*height] heads and the filters index it inside the
    grid only; a position past the end of the list reads as an empty
    column. *)
Definition column (solid : rcHeightfield) (i : Z) : list rcSpan :=
  default [] (spans solid !! Z.to_nat i).

(** The span at position [k] of the chain of column [i], if there is one. *)
Definition span_at (solid : rcHeightfield) (i : Z) (k : nat) : option rcSpan :=
  column solid i !! k.

(** [s->area = a] for the span at position [k] of column [i]. *)
Definition write_area (a : Z) (s : rcSpan) : rcSpan :=
  {| smin := smin s; smax := smax s; area := a |}.

Definition set_area (solid : rcHeightfield) (i : Z) (k : nat) (a : Z)
  : rcHeightfield :=
  {| width := width solid;
     height := height solid;
     spans := alter (alter (write_area a) k) (Z.to_nat i) (spans solid) |}.

(** The row-major double loop [for y in [0,h) for x in [0,w)] that all three
    filters share, threading the store through the body.  [w] and [h] are
    the locals [const int w = solid.width] and [const int h = solid.height],
    read once before the loops and handed to the body. *)
Definition for_each_cell
    (body : Z → Z → Z → Z → rcHeightfield → rcHeightfield)
    (solid : rcHeightfield) : rcHeightfield :=
  let w := width solid in
  let h := height solid in
  foldl (λ solid y, foldl (λ solid x, body w h x y solid) solid (seqZ 0 w))
        solid (seqZ 0 h).

(** The loop [for (s = solid.spans[i]; s; s = s->next)]: the body runs at
    positions 0, 1, ... of the chain.  No filter changes a link, so the
    positions are those of the chain when the loop starts. *)
Definition chain_positions (solid : rcHeightfield) (i : Z) : list nat :=
  seq 0 (length (column solid i)).

Section Filters.
Context {hdr : RecastHeader}.

(** ** rcFilterLowHangingWalkableObstacles *)

(** The loop state of one column: the store and the three carried locals.
    [ps] is a position in the column, [None] for the null pointer. *)
Record lowState := LowState {
  low_solid : rcHeightfield;
  ps : option nat;
  previousWalkable : bool;
  previousArea : Z
}.

(** One iteration of the span loop (lines 54-68) at position [k] of column
    [i].  [ps] is dereferenced only under [previousWalkable], which is set
    after a first iteration; the model leaves the store alone where the
    C++ code would dereference null. *)
Definition lowHanging_span (walkableClimb : Z) (i : Z)
    (st : lowState) (k : nat) : lowState :=
  let solid := low_solid st in
  match span_at solid i k with
  | None => st
  | Some s =>
    let walkable := negb (area s =? RC_NULL_AREA) in
    let solid' :=
      if negb walkable && previousWalkable st then
        match ps st ≫= span_at solid i with
        | Some p =>
          if rcAbs (smax s - smax p) <=? walkableClimb
          then set_area solid i k (previousArea st)
          else solid
        | None => solid
        end
      else solid in
    {| low_solid := solid';
       ps := Some k;
       previousWalkable := walkable;
       previousArea := from_option area (area s) (span_at solid' i k) |}
  end.

Definition lowHanging_column (walkableClimb : Z) (w h x y : Z)
    (solid : rcHeightfield) : rcHeightfield :=
  let i := x + y * w in
  low_solid
    (foldl (lowHanging_span walkableClimb i)
           {| low_solid := solid; ps := None;
              previousWalkable := false; previousArea := RC_NULL_AREA |}
           (chain_positions solid i)).

Definition rcFilterLowHangingWalkableObstacles (walkableClimb : Z)
    (solid : rcHeightfield) : rcHeightfield :=
  for_each_cell (lowHanging_column walkableClimb) solid.

(** ** rcFilterLedgeSpans *)

(** The three running locals of the neighbour scan. *)
Record scan := Scan { minh : Z; asmin : Z; asmax : Z }.

(** [ntop] of a neighbour candidate: [smin] of the span that follows, or
    [MAX_HEIGHT]. *)
Definition next_smin (rest : list rcSpan) : Z :=
  match rest with
  | n :: _ => smin n
  | [] => MAX_HEIGHT
  end.

(** The loop over the real spans of a neighbour column (lines 135-152).
    [nbot], [ntop], [bot] and [top] are span bounds here, so the
    differences are exact. *)
Fixpoint ledge_rest (walkableHeight walkableClimb bot top : Z)
    (ns : list rcSpan) (sc : scan) : scan :=
  match ns with
  | [] => sc
  | n :: rest =>
    let nbot := smax n in
    let ntop := next_smin rest in
    let sc' :=
      if rcMin top ntop - rcMax bot nbot >? walkableHeight then
        let minh' := rcMin (minh sc) (nbot - bot) in
        if rcAbs (nbot - bot) <=? walkableClimb then
          {| minh := minh';
             asmin := if nbot <? asmin sc then nbot else asmin sc;
             asmax := if nbot >? asmax sc then nbot else asmax sc |}
        else {| minh := minh'; asmin := asmin sc; asmax := asmax sc |}
      else sc in
    ledge_rest walkableHeight walkableClimb bot top rest sc'
  end.

(** The test of line 120. *)
Definition out_of_bounds (w h dx dy : Z) : bool :=
  (dx <? 0) || (dy <? 0) || (dx >=? w) || (dy >=? h).

(** One iteration of the direction loop (lines 117-152).  [nbot] of the
    virtual span is [-walkableClimb] as an [int]; [rcMax(bot, nbot)] is at
    least the span bound [bot], so the overlap is exact, while
    [-walkableClimb - bot] and [nbot - bot] can wrap. *)
Definition ledge_dir (walkableHeight walkableClimb : Z) (w h : Z)
    (solid : rcHeightfield) (x y bot top : Z) (sc : scan) (dir : Z) : scan :=
  let dx := x + rcGetDirOffsetX dir in
  let dy := y + rcGetDirOffsetY dir in
  if out_of_bounds w h dx dy then
    {| minh := rcMin (minh sc) (int_sub (int_neg walkableClimb) bot);
       asmin := asmin sc; asmax := asmax sc |}
  else
    let ns := column solid (dx + dy * w) in
    let nbot := int_neg walkableClimb in
    let ntop := next_smin ns in
    let minh' :=
      if rcMin top ntop - rcMax bot nbot >? walkableHeight
      then rcMin (minh sc) (int_sub nbot bot)
      else minh sc in
    ledge_rest walkableHeight walkableClimb bot top ns
      {| minh := minh'; asmin := asmin sc; asmax := asmax sc |}.

(** The direction loop over an explicit list of directions; the code runs
    it over [0, 1, 2, 3]. *)
Definition ledge_scan_dirs (walkableHeight walkableClimb : Z) (w h : Z)
    (solid : rcHeightfield) (x y bot top : Z) (dirs : list Z) : scan :=
  foldl (ledge_dir walkableHeight walkableClimb w h solid x y bot top)
        {| minh := MAX_HEIGHT; asmin := bot; asmax := bot |} dirs.

Definition ledge_scan (walkableHeight walkableClimb : Z) (w h : Z)
    (solid : rcHeightfield) (x y bot top : Z) : scan :=
  ledge_scan_dirs walkableHeight walkableClimb w h solid x y bot top
                  (seqZ 0 4).

(** The two tests of lines 157 and 163; [asmax - asmin] is a difference
    of span bounds. *)
Definition ledge_marks (walkableClimb : Z) (sc : scan) : bool :=
  if minh sc <? int_neg walkableClimb then true
  else if asmax sc - asmin sc >? walkableClimb then true
  else false.

(** One iteration of the span loop (lines 99-168) at position [k] of the
    column of cell [(x, y)]. *)
Definition ledge_span (walkableHeight walkableClimb : Z) (w h x y : Z)
    (solid : rcHeightfield) (k : nat) : rcHeightfield :=
  let i := x + y * w in
  match span_at solid i k with
  | None => solid
  | Some s =>
    if area s =? RC_NULL_AREA then solid
    else
      let bot := smax s in
      let top := from_option smin MAX_HEIGHT (span_at solid i (S k)) in
      let sc :=
        ledge_scan walkableHeight walkableClimb w h solid x y bot top in
      if ledge_marks walkableClimb sc
      then set_area solid i k RC_NULL_AREA
      else solid
  end.

Definition ledge_column (walkableHeight walkableClimb : Z) (w h x y : Z)
    (solid : rcHeightfield) : rcHeightfield :=
  foldl (ledge_span walkableHeight walkableClimb w h x y) solid
        (chain_positions solid (x + y * w)).

Definition rcFilterLedgeSpans (walkableHeight walkableClimb : Z)
    (solid : rcHeightfield) : rcHeightfield :=
  for_each_cell (ledge_column walkableHeight walkableClimb) solid.

(** ** rcFilterWalkableLowHeightSpans *)

(** One iteration of the span loop (lines 196-202). *)
Definition lowHeight_span (walkableHeight : Z) (i : Z)
    (solid : rcHeightfield) (k : nat) : rcHeightfield :=
  match span_at solid i k with
  | None => solid
  | Some s =>
    let bot := smax s in
    let top := from_option smin MAX_HEIGHT (span_at solid i (S k)) in
    if top - bot <=? walkableHeight
    then set_area solid i k RC_NULL_AREA
    else solid
  end.

Definition lowHeight_column (walkableHeight : Z) (w h x y : Z)
    (solid : rcHeightfield) : rcHeightfield :=
  let i := x + y * w in
  foldl (lowHeight_span walkableHeight i) solid (chain_positions solid i).

Definition rcFilterWalkableLowHeightSpans (walkableHeight : Z)
    (solid : rcHeightfield) : rcHeightfield :=
  for_each_cell (lowHeight_column walkableHeight) solid.

End Filters.

(** ** Snapshot semantics

    What each filter computes, written as a pure function of the heightfield
    it is given: every span's new area is decided from the state before the
    pass.  The theorems below show that the in-place loops compute exactly
    these. *)

(** The part of a span no filter writes. *)
Definition geom (s : rcSpan) : Z * Z := (smin s, smax s).

(** The structure of a heightfield: its chains with the areas erased. *)
Definition chains (solid : rcHeightfield) : list (list (Z * Z)) :=
  map (map geom) (spans solid).

(** The store with the column at head [i] replaced by [G] of it. *)
Definition upd_column (solid : rcHeightfield) (i : Z)
    (G : list rcSpan → list rcSpan) : rcHeightfield :=
  {| width := width solid;
     height := height solid;
     spans := alter G (Z.to_nat i) (spans solid) |}.

(** A map over a chain whose function also sees the [smin] of the span that
    follows (or [MAX_HEIGHT]). *)
Fixpoint chain_map (f : rcSpan → Z → rcSpan) (col : list rcSpan)
  : list rcSpan :=
  match col with
  | [] => []
  | s :: rest => f s (next_smin rest) :: chain_map f rest
  end.

Definition in_grid (w h x y : Z) : Prop := 0 ≤ x < w ∧ 0 ≤ y < h.

(** The cells in the order of the double loop of [for_each_cell]. *)
Definition row_major (w h : Z) : list (Z * Z) :=
  y ← seqZ 0 h; (λ x, (x, y)) <$> seqZ 0 w.

(** A column body run over the cells in any given order. *)
Definition visit_cells (body : Z → Z → rcHeightfield → rcHeightfield)
    (cells : list (Z * Z)) (solid : rcHeightfield) : rcHeightfield :=
  foldl (λ st c, body c.1 c.2 st) solid cells.

(** The heightfield whose column of cell [(x, y)] is [F x y] of the column
    of [solid], for every cell of the grid; column heads past the grid are
    kept. *)
Definition snapshot_map (F : Z → Z → list rcSpan → list rcSpan)
    (solid : rcHeightfield) : rcHeightfield :=
  let w := width solid in
  let h := height solid in
  {| width := w;
     height := h;
     spans :=
       imap (λ j col,
               if (0 <? w) && (Z.of_nat j <? w * h)
               then F (Z.of_nat j `mod` w) (Z.of_nat j `div` w) col
               else col)
            (spans solid) |}.

(** The index of the column head of a cell, [x + y*w], as a position of
    the array of column heads. *)
Definition cell_index (w : Z) (c : Z * Z) : nat := Z.to_nat (c.1 + c.2 * w).

(** The array of column heads after the columns of [cells] were replaced,
    one after the other, by [F] of them. *)
Definition alter_cells (w : Z) (F : Z → Z → list rcSpan → list rcSpan)
    (cells : list (Z * Z)) (l : list (list rcSpan)) : list (list rcSpan) :=
  foldl (λ l c, alter (F c.1 c.2) (cell_index w c) l) l cells.

Definition running_min (init : Z) (l : list Z) : Z := foldl Z.min init l.
Definition running_max (init : Z) (l : list Z) : Z := foldl Z.max init l.

Section Snapshot.
Context {hdr : RecastHeader}.

(** Low-hanging obstacles: the new span at a position, from the span and its
    predecessor as they were before the pass. *)
Definition low_decide (walkableClimb : Z) (prev : option rcSpan)
    (s : rcSpan) : rcSpan :=
  match prev with
  | Some p =>
    if (area s =? RC_NULL_AREA) && negb (area p =? RC_NULL_AREA)
       && (Z.abs (smax s - smax p) <=? walkableClimb)
    then write_area (area p) s
    else s
  | None => s
  end.

Fixpoint low_chain (walkableClimb : Z) (prev : option rcSpan)
    (col : list rcSpan) : list rcSpan :=
  match col with
  | [] => []
  | s :: rest =>
    low_decide walkableClimb prev s :: low_chain walkableClimb (Some s) rest
  end.

(** The invariant of the span loop of [lowHanging_column] when it is about
    to run at the position after [pre]: [prev] is the span below as it was
    before the pass, the last span of [pre] is what the loop made of it. *)
Definition low_inv (ls : lowState) (pre : list rcSpan)
    (prev : option rcSpan) : Prop :=
  match prev with
  | None => pre = [] ∧ previousWalkable ls = false
  | Some p0 =>
    ∃ pre' p',
      pre = pre' ++ [p'] ∧ ps ls = Some (length pre')
      ∧ smax p' = smax p0
      ∧ previousWalkable ls = negb (area p0 =? RC_NULL_AREA)
      ∧ previousArea ls = area p'
      ∧ (area p0 ≠ RC_NULL_AREA → area p' = area p0)
  end.

(** Clearance: the new span, from the span and the [smin] above it. *)
Definition lowHeight_decide (walkableHeight : Z) (s : rcSpan) (top : Z)
  : rcSpan :=
  if top - smax s <=? walkableHeight then write_area RC_NULL_AREA s else s.

(** Ledges: the new span, from the span, the [smin] above it and the scan of
    the neighbours in [solid]. *)
Definition ledge_decide (walkableHeight walkableClimb : Z) (w h : Z)
    (solid : rcHeightfield) (x y : Z) (s : rcSpan) (top : Z) : rcSpan :=
  if area s =? RC_NULL_AREA then s
  else if ledge_marks walkableClimb
            (ledge_scan walkableHeight walkableClimb w h solid x y
                        (smax s) top)
  then write_area RC_NULL_AREA s
  else s.

Definition ledge_snapshot (walkableHeight walkableClimb : Z)
    (solid : rcHeightfield) : rcHeightfield :=
  snapshot_map
    (λ x y, chain_map (ledge_decide walkableHeight walkableClimb
                                    (width solid) (height solid) solid x y))
    solid.

(** The ledge pass with its columns visited in the order of [cells]. *)
Definition ledge_visit (walkableHeight walkableClimb : Z)
    (cells : list (Z * Z)) (solid : rcHeightfield) : rcHeightfield :=
  visit_cells (ledge_column walkableHeight walkableClimb
                            (width solid) (height solid))
              cells solid.

(** ** The ledge rule in the words of the specification *)

(** A candidate surface of a neighbour column: [(nbot, ntop)]. *)
Fixpoint real_candidates (ns : list rcSpan) : list (Z * Z) :=
  match ns with
  | [] => []
  | n :: rest => (smax n, next_smin rest) :: real_candidates rest
  end.

Definition virtual_candidate (walkableClimb : Z) (ns : list rcSpan)
  : Z * Z :=
  (- walkableClimb, next_smin ns).

(** Overlap [min(top, ntop) - max(bot, nbot)] above [walkableHeight]. *)
Definition sufficient (walkableHeight bot top : Z) (c : Z * Z) : bool :=
  Z.min top c.2 - Z.max bot c.1 >? walkableHeight.

(** [|nbot - bot| <= walkableClimb]. *)
Definition accessible (walkableClimb bot : Z) (c : Z * Z) : bool :=
  Z.abs (c.1 - bot) <=? walkableClimb.

(** The neighbour column in direction [dir], [None] outside the grid. *)
Definition neighbour (w h : Z) (solid : rcHeightfield) (x y dir : Z)
  : option (list rcSpan) :=
  let dx := x + rcGetDirOffsetX dir in
  let dy := y + rcGetDirOffsetY dir in
  if out_of_bounds w h dx dy then None
  else Some (column solid (dx + dy * w)).

(** The test of line 120 for direction [dir] of cell [(x, y)], negated. *)
Definition inside (w h x y dir : Z) : bool :=
  negb (out_of_bounds w h (x + rcGetDirOffsetX dir)
                      (y + rcGetDirOffsetY dir)).

(** The surfaces the neighbours offer: the real candidates with enough
    overlap, direction by direction. *)
Definition dir_surfaces (walkableHeight : Z) (w h : Z)
    (solid : rcHeightfield) (x y bot top : Z) (dir : Z) : list (Z * Z) :=
  match neighbour w h solid x y dir with
  | None => []
  | Some ns =>
    filter (λ c, sufficient walkableHeight bot top c) (real_candidates ns)
  end.

Definition surfaces (walkableHeight : Z) (w h : Z)
    (solid : rcHeightfield) (x y bot top : Z) (dirs : list Z)
  : list (Z * Z) :=
  dirs ≫= dir_surfaces walkableHeight w h solid x y bot top.

(** The values folded into [minh] by one direction. *)
Definition dir_drops (walkableHeight walkableClimb : Z) (w h : Z)
    (solid : rcHeightfield) (x y bot top : Z) (dir : Z) : list Z :=
  match neighbour w h solid x y dir with
  | None => [- walkableClimb - bot]
  | Some ns =>
    (λ c, c.1 - bot) <$>
      filter (λ c, sufficient walkableHeight bot top c)
             (virtual_candidate walkableClimb ns :: real_candidates ns)
  end.

(** The values folded into [minh], direction by direction. *)
Definition drops (walkableHeight walkableClimb : Z) (w h : Z)
    (solid : rcHeightfield) (x y bot top : Z) (dirs : list Z) : list Z :=
  dirs ≫= dir_drops walkableHeight walkableClimb w h solid x y bot top.

(** The heights [nbot] folded into [asmin] and [asmax] by one direction.
    With [with_virtual] the virtual span takes part like a real one, as the
    specification words it; without, only the real spans do. *)
Definition dir_accessible (with_virtual : bool)
    (walkableHeight walkableClimb : Z) (w h : Z)
    (solid : rcHeightfield) (x y bot top : Z) (dir : Z) : list Z :=
  match neighbour w h solid x y dir with
  | None => []
  | Some ns =>
    fst <$>
      filter (λ c, accessible walkableClimb bot c)
        (filter (λ c, sufficient walkableHeight bot top c)
           (if with_virtual
            then virtual_candidate walkableClimb ns :: real_candidates ns
            else real_candidates ns))
  end.

Definition accessible_heights (with_virtual : bool)
    (walkableHeight walkableClimb : Z) (w h : Z)
    (solid : rcHeightfield) (x y bot top : Z) (dirs : list Z) : list Z :=
  dirs ≫= dir_accessible with_virtual walkableHeight walkableClimb w h
                         solid x y bot top.

(** The decision of the specification: [minh < -walkableClimb] or
    [asmax - asmin > walkableClimb]. *)
Definition ledge_rule (with_virtual : bool)
    (walkableHeight walkableClimb : Z) (w h : Z)
    (solid : rcHeightfield) (x y bot top : Z) : Prop :=
  let dirs := seqZ 0 4 in
  let acc := accessible_heights with_virtual walkableHeight walkableClimb
                                w h solid x y bot top dirs in
  running_min MAX_HEIGHT
    (drops walkableHeight walkableClimb w h solid x y bot top dirs)
    < - walkableClimb
  ∨ running_max bot acc - running_min bot acc > walkableClimb.

(** The claim of the specification about one span [s] at position [k] of
    the column of cell [(x, y)], walkable before the pass: it ends up not
    walkable exactly when the rule holds. *)
Definition ledge_criterion (with_virtual : bool)
    (walkableHeight walkableClimb : Z) (solid : rcHeightfield)
    (x y : Z) (k : nat) (s : rcSpan) : Prop :=
  let w := width solid in
  let h := height solid in
  let i := x + y * w in
  let top := from_option smin MAX_HEIGHT (span_at solid i (S k)) in
  area <$> span_at (rcFilterLedgeSpans walkableHeight walkableClimb solid) i k
    = Some RC_NULL_AREA
  ↔ ledge_rule with_virtual walkableHeight walkableClimb w h solid x y
               (smax s) top.

(** The rule with the directions that leave the grid left out of the
    scan. *)
Definition ledge_rule_inside (walkableHeight walkableClimb : Z) (w h : Z)
    (solid : rcHeightfield) (x y bot top : Z) : Prop :=
  let dirs := filter (λ d, inside w h x y d) (seqZ 0 4) in
  let acc := accessible_heights false walkableHeight walkableClimb
                                w h solid x y bot top dirs in
  running_min MAX_HEIGHT
    (drops walkableHeight walkableClimb w h solid x y bot top dirs)
    < - walkableClimb
  ∨ running_max bot acc - running_min bot acc > walkableClimb.

(** The values the code folds into [minh] in one direction, as [int]s: the
    boundary value, the virtual span when it has enough overlap, and the
    real spans that have. *)
Definition dir_folded (walkableHeight walkableClimb : Z) (w h : Z)
    (solid : rcHeightfield) (x y bot top : Z) (dir : Z) : list Z :=
  let nbot := int_neg walkableClimb in
  match neighbour w h solid x y dir with
  | None => [int_sub nbot bot]
  | Some ns =>
    (if sufficient walkableHeight bot top (nbot, next_smin ns)
     then [int_sub nbot bot] else [])
    ++ ((λ c, c.1 - bot) <$>
          filter (λ c, sufficient walkableHeight bot top c)
                 (real_candidates ns))
  end.

Definition folded (walkableHeight walkableClimb : Z) (w h : Z)
    (solid : rcHeightfield) (x y bot top : Z) (dirs : list Z) : list Z :=
  dirs ≫= dir_folded walkableHeight walkableClimb w h solid x y bot top.

End Snapshot.

(** ** Heightfields used as concrete inputs *)

(** A column with one walkable span whose top is at 0, the [bot = 0] of
    the examples of the specification, and one whose top is at 1. *)
Definition flat0 : list rcSpan := [Span 0 0 1].
Definition floor1 : list rcSpan := [Span 0 1 1].

(** A 3x3 grid; the centre span has its top at 0, an empty column to its
    left and a step of height 1 to its right. *)
Definition scene_virtual : rcHeightfield :=
  Heightfield 3 3
    [ flat0; flat0; flat0;
      [];    flat0; [Span 0 1 1];
      flat0; flat0; flat0 ].

(** A 3x3 grid; the neighbours of the centre span (top at 0) have their
    tops at 0, 0, 0 and 5. *)
Definition scene_steep : rcHeightfield :=
  Heightfield 3 3
    [ flat0; flat0; flat0;
      flat0; flat0; flat0;
      flat0; [Span 0 5 1]; flat0 ].

(** A 2x1 grid of level spans with their tops at 0. *)
Definition scene_edge : rcHeightfield :=
  Heightfield 2 1 [ flat0; flat0 ].

(** One column: a walkable span with its top at 0 under two spans that are
    not walkable, tops at 1 and 2. *)
Definition scene_hop : rcHeightfield :=
  Heightfield 1 1 [ [Span 0 0 1; Span 0 1 0; Span 1 2 0] ].

(** A 3x3 floor with its top at 1; the centre column has a floor with its
    top at 2 and an obstacle with its top at 6. *)
Definition scene_order : rcHeightfield :=
  Heightfield 3 3
    [ floor1; floor1; floor1;
      floor1; [Span 0 2 1; Span 5 6 0]; floor1;
      floor1; floor1; floor1 ].

(** One column with a low ceiling. *)
Definition scene_ceiling : rcHeightfield :=
  Heightfield 1 1 [ [Span 0 1 1; Span 3 4 1] ].

(** One column: a walkable span under a low ceiling that is itself not
    walkable. *)
Definition scene_shelf : rcHeightfield :=
  Heightfield 1 1 [ [Span 0 1 1; Span 2 3 0] ].

(** A 3x3 level floor with its top at 1. *)
Definition scene_flat : rcHeightfield :=
  Heightfield 3 3
    [ floor1; floor1; floor1;
      floor1; floor1; floor1;
      floor1; floor1; floor1 ].

(** A 1x1 grid with one walkable span whose top is at 2. *)
Definition scene_tall : rcHeightfield := Heightfield 1 1 [ [Span 0 2 1] ].

(** A heightfield whose grid has no cell. *)
Definition scene_void : rcHeightfield := Heightfield 0 3 [].

(** The low-hanging-obstacle pass and the clearance pass with their columns
    visited in the order of [cells]. *)
Definition lowHanging_visit {hdr : RecastHeader} (walkableClimb : Z)
    (cells : list (Z * Z)) (solid : rcHeightfield) : rcHeightfield :=
  visit_cells (lowHanging_column walkableClimb (width solid) (height solid))
              cells solid.

Definition lowHeight_visit {hdr : RecastHeader} (walkableHeight : Z)
    (cells : list (Z * Z)) (solid : rcHeightfield) : rcHeightfield :=
  visit_cells (lowHeight_column walkableHeight (width solid) (height solid))
              cells solid.

(** * Proofs *)

(** ** The helper templates *)

Lemma rcMin_min a b : rcMin a b = Z.min a b.
Proof. unfold rcMin. destruct (Z.ltb_spec a b); lia. Qed.

Lemma rcMax_max a b : rcMax a b = Z.max a b.
Proof. unfold rcMax. rewrite Z.gtb_ltb. destruct (Z.ltb_spec b a); lia. Qed.

Lemma rcAbs_abs a : rcAbs a = Z.abs a.
Proof. unfold rcAbs. destruct (Z.ltb_spec a 0); lia. Qed.

(** ** The store *)

Lemma set_area_upd solid i k a :
  set_area solid i k a = upd_column solid i (alter (write_area a) k).
Proof. reflexivity. Qed.

(** Replacing a column by what it already is changes nothing. *)
Lemma upd_column_same solid i G :
  G (column solid i) = column solid i → upd_column solid i G = solid.
Proof.
  destruct solid as [w h l]. unfold upd_column, column. simpl. intros HG.
  f_equal. apply list_eq. intros j.
  destruct (decide (j = Z.to_nat i)) as [->|Hne].
  - rewrite list_lookup_alter_eq.
    destruct (l !! Z.to_nat i) as [c|] eqn:E; simpl in *; [by rewrite HG|done].
  - by rewrite list_lookup_alter_ne.
Qed.

Lemma upd_column_twice solid i G G' :
  upd_column (upd_column solid i G) i G' = upd_column solid i (G' ∘ G).
Proof.
  unfold upd_column. simpl. f_equal. apply list_alter_alter_eq.
Qed.

(** Only the value of [G] at the column of [solid] matters. *)
Lemma upd_column_ext solid i G G' :
  G (column solid i) = G' (column solid i) →
  upd_column solid i G = upd_column solid i G'.
Proof.
  unfold upd_column, column. intros HG. f_equal. apply list_eq. intros j.
  destruct (decide (j = Z.to_nat i)) as [->|Hne].
  - rewrite !list_lookup_alter_eq.
    destruct (spans solid !! Z.to_nat i) as [c|] eqn:E; simpl in *;
      [by rewrite HG|done].
  - by rewrite !list_lookup_alter_ne.
Qed.

Lemma column_upd_column_eq solid i G :
  column (upd_column solid i G) i
  = match spans solid !! Z.to_nat i with
    | Some c => G c
    | None => []
    end.
Proof.
  unfold column, upd_column. simpl. rewrite list_lookup_alter_eq.
  by destruct (spans solid !! Z.to_nat i).
Qed.

(** A column that has a span is a column of the array. *)
Lemma column_cons_lookup solid i pre s rest :
  column solid i = pre ++ s :: rest →
  spans solid !! Z.to_nat i = Some (pre ++ s :: rest).
Proof.
  unfold column. destruct (spans solid !! Z.to_nat i); simpl; intros E.
  - by rewrite E.
  - by destruct pre.
Qed.

Lemma chains_upd_column solid i G :
  (∀ c, map geom (G c) = map geom c) →
  chains (upd_column solid i G) = chains solid.
Proof.
  intros HG. unfold chains, upd_column. simpl.
  apply list_eq. intros j. rewrite !list_lookup_fmap.
  destruct (decide (j = Z.to_nat i)) as [->|Hne].
  - rewrite list_lookup_alter_eq.
    destruct (spans solid !! Z.to_nat i); simpl; [by rewrite HG|done].
  - by rewrite list_lookup_alter_ne.
Qed.

Lemma chains_column solid solid' i :
  chains solid = chains solid' →
  map geom (column solid i) = map geom (column solid' i).
Proof.
  unfold chains, column. intros E.
  assert (map (map geom) (spans solid) !! Z.to_nat i
          = map (map geom) (spans solid') !! Z.to_nat i) as E'
    by by rewrite E.
  rewrite !list_lookup_fmap in E'.
  destruct (spans solid !! Z.to_nat i), (spans solid' !! Z.to_nat i);
    simpl in *; congruence.
Qed.

Lemma next_smin_lookup (c : list rcSpan) :
  from_option smin MAX_HEIGHT (c !! 0%nat) = next_smin c.
Proof. by destruct c. Qed.

Lemma next_smin_geom (c c' : list rcSpan) :
  map geom c = map geom c' → next_smin c = next_smin c'.
Proof. destruct c, c'; simpl; intros E; try done. by injection E. Qed.

Lemma chain_map_geom f (c : list rcSpan) :
  (∀ s top, geom (f s top) = geom s) →
  map geom (chain_map f c) = map geom c.
Proof. intros Hf. induction c; simpl; [done|]. by rewrite Hf, IHc. Qed.

Lemma chain_map_lookup f (c : list rcSpan) k :
  chain_map f c !! k
  = (λ s, f s (from_option smin MAX_HEIGHT (c !! S k))) <$> c !! k.
Proof.
  revert k. induction c as [|s c IH]; intros [|k]; simpl; try done.
  by rewrite next_smin_lookup.
Qed.

(** ** The span loop of one column

    A loop body that rewrites the span it is at from that span and the
    [smin] above it computes [chain_map] of the column. *)
Section ColumnLoop.
Variable i : Z.
Variable step : rcHeightfield → nat → rcHeightfield.
Variable f : rcSpan → Z → rcSpan.
Variable Q : rcHeightfield → Prop.

Hypothesis step_spec : ∀ st pre s rest,
  Q st → column st i = pre ++ s :: rest →
  step st (length pre)
  = upd_column st i (λ _, pre ++ f s (next_smin rest) :: rest).
Hypothesis Q_upd : ∀ st c,
  Q st → map geom c = map geom (column st i) →
  Q (upd_column st i (λ _, c)).
Hypothesis f_geom : ∀ s top, geom (f s top) = geom s.

Lemma column_loop_from rest : ∀ pre st,
  Q st → column st i = pre ++ rest →
  foldl step st (seq (length pre) (length rest))
  = upd_column st i (λ _, pre ++ chain_map f rest).
Proof.
  induction rest as [|s rest IH]; intros pre st HQ Hcol; simpl.
  - symmetry. apply upd_column_same. by rewrite Hcol.
  - rewrite (step_spec st pre s rest HQ Hcol).
    pose proof (column_cons_lookup _ _ _ _ _ Hcol) as Hl.
    set (s' := f s (next_smin rest)).
    specialize (IH (pre ++ [s'])
                   (upd_column st i (λ _, pre ++ s' :: rest))).
    rewrite length_app in IH. simpl in IH.
    rewrite Nat.add_1_r in IH. rewrite IH.
    + rewrite upd_column_twice. unfold compose.
      by rewrite <- (assoc_L (++)).
    + apply Q_upd; [done|]. rewrite Hcol, !map_app. simpl.
      unfold s'. by rewrite f_geom.
    + rewrite column_upd_column_eq, Hl. by rewrite <- (assoc_L (++)).
Qed.

Lemma column_loop st :
  Q st →
  foldl step st (chain_positions st i) = upd_column st i (chain_map f).
Proof.
  intros HQ. unfold chain_positions.
  pose proof (column_loop_from (column st i) [] st HQ eq_refl) as E.
  simpl in E. rewrite E. by apply upd_column_ext.
Qed.

End ColumnLoop.

(** ** The loop over the cells *)

Lemma for_each_cell_visit body solid :
  for_each_cell body solid
  = visit_cells (body (width solid) (height solid))
                (row_major (width solid) (height solid)) solid.
Proof.
  unfold for_each_cell, visit_cells, row_major.
  generalize (seqZ 0 (width solid)) as xs.
  generalize (body (width solid) (height solid)) as b. intros b xs.
  generalize (seqZ 0 (height solid)) as ys. intros ys. revert solid.
  induction ys as [|y ys IH]; intros st; csimpl; [done|].
  rewrite foldl_app, foldl_fmap. simpl. apply IH.
Qed.

Lemma elem_of_row_major w h x y :
  (x, y) ∈ row_major w h ↔ in_grid w h x y.
Proof.
  unfold row_major, in_grid. rewrite list_elem_of_bind. split.
  - intros (y' & Hx & Hy). apply list_elem_of_fmap in Hx as (x' & E & Hx).
    injection E as -> ->.
    apply elem_of_seqZ in Hx. apply elem_of_seqZ in Hy. lia.
  - intros [Hx Hy]. exists y. split.
    + apply list_elem_of_fmap. exists x. split; [done|].
      apply elem_of_seqZ. lia.
    + apply elem_of_seqZ. lia.
Qed.

Lemma row_major_in_grid w h :
  Forall (λ c, in_grid w h c.1 c.2) (row_major w h).
Proof.
  apply Forall_forall. intros [x y] Hc. simpl. by apply elem_of_row_major.
Qed.

Lemma cell_index_inj w h c c' :
  in_grid w h c.1 c.2 → in_grid w h c'.1 c'.2 →
  cell_index w c = cell_index w c' → c = c'.
Proof.
  destruct c as [x y], c' as [x' y']. unfold in_grid, cell_index. simpl.
  intros [Hx Hy] [Hx' Hy'] E.
  apply Z2Nat.inj in E; [|nia..].
  assert (y = y') as -> by nia. f_equal. lia.
Qed.

Lemma NoDup_row_major w h : NoDup (row_major w h).
Proof.
  unfold row_major. apply NoDup_bind.
  - intros y1 y2 [x y] _ _ H1 H2.
    apply list_elem_of_fmap in H1 as (? & E1 & _).
    apply list_elem_of_fmap in H2 as (? & E2 & _). congruence.
  - intros y _. apply NoDup_fmap_2_strong; [|apply NoDup_seqZ].
    intros ? ? _ _ E. congruence.
  - apply NoDup_seqZ.
Qed.

Lemma NoDup_cell_index w h (cells : list (Z * Z)) :
  Forall (λ c, in_grid w h c.1 c.2) cells → NoDup cells →
  NoDup (cell_index w <$> cells).
Proof.
  intros Hg Hnd. apply NoDup_fmap_2_strong; [|done].
  rewrite Forall_forall in Hg.
  intros c c' Hc Hc'. apply (cell_index_inj w h); auto.
Qed.

(** Every position below [w*h] is the index of one cell of the grid. *)
Lemma cell_of_index w h (j : nat) :
  0 < w → Z.of_nat j < w * h →
  in_grid w h (Z.of_nat j `mod` w) (Z.of_nat j `div` w)
  ∧ cell_index w (Z.of_nat j `mod` w, Z.of_nat j `div` w) = j.
Proof.
  intros Hw Hj. unfold in_grid, cell_index. simpl.
  pose proof (Z.mod_pos_bound (Z.of_nat j) w Hw).
  pose proof (Z.div_mod (Z.of_nat j) w ltac:(lia)) as Hdm.
  assert (0 ≤ Z.of_nat j `div` w) by (apply Z.div_pos; lia).
  assert (Z.of_nat j `div` w < h).
  { apply Z.div_lt_upper_bound; lia. }
  split; [lia|].
  replace (Z.of_nat j `mod` w + Z.of_nat j `div` w * w) with (Z.of_nat j)
    by lia.
  apply Nat2Z.id.
Qed.

Lemma cell_index_bound w h c :
  in_grid w h c.1 c.2 → 0 < w ∧ Z.of_nat (cell_index w c) < w * h.
Proof.
  destruct c as [x y]. unfold in_grid, cell_index. simpl. intros [Hx Hy].
  rewrite Z2Nat.id by nia. split; [lia|nia].
Qed.

Section AlterCells.
Variable w : Z.
Variable F : Z → Z → list rcSpan → list rcSpan.

Lemma alter_cells_lookup_notin cells : ∀ l j,
  j ∉ cell_index w <$> cells → alter_cells w F cells l !! j = l !! j.
Proof.
  unfold alter_cells.
  induction cells as [|c cells IH]; intros l j Hj; simpl; [done|].
  rewrite fmap_cons, not_elem_of_cons in Hj. destruct Hj as [Hne Hj].
  rewrite IH by done. by rewrite list_lookup_alter_ne.
Qed.

Lemma alter_cells_lookup_in cells : ∀ l c,
  NoDup (cell_index w <$> cells) → c ∈ cells →
  alter_cells w F cells l !! cell_index w c
  = F c.1 c.2 <$> l !! cell_index w c.
Proof.
  unfold alter_cells.
  induction cells as [|c0 cells IH]; intros l c Hnd Hc; simpl.
  - by apply elem_of_nil in Hc.
  - rewrite fmap_cons in Hnd. apply NoDup_cons in Hnd as [Hnotin Hnd].
    apply elem_of_cons in Hc as [->|Hc].
    + fold (alter_cells w F cells (alter (F c0.1 c0.2) (cell_index w c0) l)).
      rewrite alter_cells_lookup_notin by done.
      apply list_lookup_alter_eq.
    + rewrite IH by done.
      rewrite list_lookup_alter_ne; [done|].
      intros E. apply Hnotin. rewrite E. by apply list_elem_of_fmap_2.
Qed.

(** The result does not depend on the order of the cells. *)
Lemma alter_cells_perm cells cells' l :
  NoDup (cell_index w <$> cells) → cells ≡ₚ cells' →
  alter_cells w F cells l = alter_cells w F cells' l.
Proof.
  intros Hnd Hp. apply list_eq. intros j.
  assert (NoDup (cell_index w <$> cells')) as Hnd' by by rewrite <- Hp.
  destruct (decide (j ∈ cell_index w <$> cells)) as [Hin|Hnotin].
  - apply list_elem_of_fmap in Hin as (c & -> & Hc).
    rewrite !alter_cells_lookup_in; try done. by rewrite <- Hp.
  - rewrite !alter_cells_lookup_notin; try done. by rewrite <- Hp.
Qed.

End AlterCells.

Section CellLoop.
Variables w h : Z.
Variable body : Z → Z → rcHeightfield → rcHeightfield.
Variable F : Z → Z → list rcSpan → list rcSpan.
Variable Q : rcHeightfield → Prop.

Hypothesis body_spec : ∀ st x y,
  Q st → in_grid w h x y → body x y st = upd_column st (x + y * w) (F x y).
Hypothesis Q_upd : ∀ st i G,
  Q st → (∀ c, map geom (G c) = map geom c) → Q (upd_column st i G).
Hypothesis F_geom : ∀ x y c, map geom (F x y c) = map geom c.

Lemma visit_cells_spec cells :
  Forall (λ c, in_grid w h c.1 c.2) cells →
  ∀ st, Q st →
  visit_cells body cells st
  = {| width := width st; height := height st;
       spans := alter_cells w F cells (spans st) |}.
Proof.
  induction 1 as [|c cells Hc Hcs IH]; intros st HQ.
  - by destruct st.
  - unfold visit_cells, alter_cells in *. simpl.
    rewrite body_spec by done. rewrite IH; [done|].
    apply Q_upd; [done|]. apply F_geom.
Qed.

Lemma visit_row_major_snapshot st :
  width st = w → height st = h → Q st →
  visit_cells body (row_major w h) st = snapshot_map F st.
Proof.
  intros Hw Hh HQ.
  rewrite visit_cells_spec by auto using row_major_in_grid.
  unfold snapshot_map. rewrite Hw, Hh. f_equal.
  apply list_eq. intros j. rewrite list_lookup_imap.
  destruct ((0 <? w) && (Z.of_nat j <? w * h)) eqn:E.
  - apply andb_true_iff in E as [E1%Z.ltb_lt E2%Z.ltb_lt].
    destruct (cell_of_index w h j E1 E2) as [Hg Hj].
    set (c := (Z.of_nat j `mod` w, Z.of_nat j `div` w)) in *.
    pose proof (alter_cells_lookup_in w F (row_major w h) (spans st) c)
      as Hin.
    rewrite Hj in Hin. apply Hin.
    + apply (NoDup_cell_index w h);
        auto using row_major_in_grid, NoDup_row_major.
    + by apply elem_of_row_major.
  - rewrite alter_cells_lookup_notin; [by destruct (spans st !! j)|].
    intros (c & -> & Hc)%list_elem_of_fmap.
    destruct c as [x y]. apply elem_of_row_major in Hc.
    apply (cell_index_bound w h (x, y)) in Hc as [H1 H2].
    apply andb_false_iff in E as [E%Z.ltb_ge|E%Z.ltb_ge]; lia.
Qed.

(** Visiting the cells in another order gives the same heightfield. *)
Lemma visit_cells_perm cells st :
  cells ≡ₚ row_major w h → Q st →
  visit_cells body cells st = visit_cells body (row_major w h) st.
Proof.
  intros Hp HQ.
  assert (Forall (λ c, in_grid w h c.1 c.2) cells) as Hg
    by (rewrite Hp; apply row_major_in_grid).
  rewrite !visit_cells_spec by auto using row_major_in_grid.
  f_equal. apply alter_cells_perm; [|done].
  apply (NoDup_cell_index w h); [done|].
  rewrite Hp. apply NoDup_row_major.
Qed.

End CellLoop.

Lemma column_snapshot_map F solid x y :
  in_grid (width solid) (height solid) x y →
  F x y [] = [] →
  column (snapshot_map F solid) (x + y * width solid)
  = F x y (column solid (x + y * width solid)).
Proof.
  intros Hg Hnil. unfold column, snapshot_map. simpl.
  rewrite list_lookup_imap.
  pose proof (cell_index_bound _ _ (x, y) Hg) as [H1 H2].
  unfold cell_index in H2. simpl in H2.
  destruct Hg as [Hx Hy].
  assert (0 ≤ x + y * width solid) as Hnn by nia.
  destruct (spans solid !! Z.to_nat (x + y * width solid)) as [c|];
    simpl; [|done].
  rewrite (proj2 (Z.ltb_lt _ _) H1), (proj2 (Z.ltb_lt _ _) H2). simpl.
  rewrite Z2Nat.id by done.
  rewrite Z.mod_add, Z.div_add by lia.
  rewrite Z.mod_small, Z.div_small by lia.
  by rewrite Z.add_0_l.
Qed.

Lemma chains_snapshot_map F solid :
  (∀ x y c, map geom (F x y c) = map geom c) →
  chains (snapshot_map F solid) = chains solid.
Proof.
  intros HF. unfold chains, snapshot_map. simpl.
  apply list_eq. intros j. rewrite !list_lookup_fmap, list_lookup_imap.
  destruct (spans solid !! j) as [c|]; simpl; [|done].
  by destruct (_ && _); rewrite ?HF.
Qed.

(** ** Reading and writing one span of a column *)

Lemma span_at_middle st i pre s rest :
  column st i = pre ++ s :: rest → span_at st i (length pre) = Some s.
Proof. unfold span_at. intros ->. apply list_lookup_middle. done. Qed.

Lemma span_at_above st i pre s rest :
  column st i = pre ++ s :: rest →
  from_option smin MAX_HEIGHT (span_at st i (S (length pre)))
  = next_smin rest.
Proof.
  unfold span_at. intros ->.
  rewrite lookup_app_r by lia.
  replace (S (length pre) - length pre)%nat with 1%nat by lia. simpl.
  apply next_smin_lookup.
Qed.

Lemma set_area_at st i pre s rest a :
  column st i = pre ++ s :: rest →
  set_area st i (length pre) a
  = upd_column st i (λ _, pre ++ write_area a s :: rest).
Proof.
  intros Hcol. rewrite set_area_upd. apply upd_column_ext. rewrite Hcol.
  by rewrite alter_app_r_alt, Nat.sub_diag by lia.
Qed.

Lemma keep_at st i c :
  column st i = c → st = upd_column st i (λ _, c).
Proof. intros Hcol. symmetry. by apply upd_column_same. Qed.

Lemma snapshot_map_idem F solid :
  (∀ x y c, F x y (F x y c) = F x y c) →
  snapshot_map F (snapshot_map F solid) = snapshot_map F solid.
Proof.
  intros HF. unfold snapshot_map. simpl. f_equal.
  apply list_eq. intros j. rewrite !list_lookup_imap.
  destruct (spans solid !! j) as [c|]; simpl; [|done].
  destruct (_ && _); by rewrite ?HF.
Qed.

Lemma chain_map_idem f (c : list rcSpan) :
  (∀ s top, geom (f s top) = geom s) →
  (∀ s top, f (f s top) top = f s top) →
  chain_map f (chain_map f c) = chain_map f c.
Proof.
  intros Hg Hf. induction c as [|s c IH]; simpl; [done|].
  rewrite IH. f_equal.
  rewrite (next_smin_geom (chain_map f c) c) by by apply chain_map_geom.
  apply Hf.
Qed.

(** ** rcFilterWalkableLowHeightSpans *)

Section Clearance.
Context {hdr : RecastHeader}.

Lemma lowHeight_decide_geom wh s top :
  geom (lowHeight_decide wh s top) = geom s.
Proof. unfold lowHeight_decide. by destruct (_ <=? _). Qed.

Lemma lowHeight_decide_idem wh s top :
  lowHeight_decide wh (lowHeight_decide wh s top) top
  = lowHeight_decide wh s top.
Proof.
  unfold lowHeight_decide.
  destruct (top - smax s <=? wh) eqn:E; simpl; by rewrite E.
Qed.

Lemma lowHeight_span_spec wh i st pre s rest :
  column st i = pre ++ s :: rest →
  lowHeight_span wh i st (length pre)
  = upd_column st i
      (λ _, pre ++ lowHeight_decide wh s (next_smin rest) :: rest).
Proof.
  intros Hcol. unfold lowHeight_span, lowHeight_decide.
  rewrite (span_at_middle _ _ _ _ _ Hcol), (span_at_above _ _ _ _ _ Hcol).
  destruct (_ <=? _).
  - by apply set_area_at.
  - by apply keep_at.
Qed.

Lemma lowHeight_column_spec wh w h x y st :
  lowHeight_column wh w h x y st
  = upd_column st (x + y * w) (chain_map (lowHeight_decide wh)).
Proof.
  unfold lowHeight_column.
  apply (column_loop _ _ _ (λ _, True)); auto using lowHeight_decide_geom.
  intros. by apply lowHeight_span_spec.
Qed.

Lemma lowHeight_snapshot wh solid :
  rcFilterWalkableLowHeightSpans wh solid
  = snapshot_map (λ _ _, chain_map (lowHeight_decide wh)) solid.
Proof.
  unfold rcFilterWalkableLowHeightSpans. rewrite for_each_cell_visit.
  apply (visit_row_major_snapshot _ _ _ _ (λ _, True)); auto.
  - intros. apply lowHeight_column_spec.
  - intros. apply chain_map_geom, lowHeight_decide_geom.
Qed.

Lemma lowHeight_span_after wh solid x y k :
  in_grid (width solid) (height solid) x y →
  span_at (rcFilterWalkableLowHeightSpans wh solid) (x + y * width solid) k
  = (λ s, lowHeight_decide wh s
            (from_option smin MAX_HEIGHT
               (span_at solid (x + y * width solid) (S k))))
    <$> span_at solid (x + y * width solid) k.
Proof.
  intros Hg. unfold span_at. rewrite lowHeight_snapshot.
  rewrite column_snapshot_map by done. apply chain_map_lookup.
Qed.

End Clearance.

(** ** rcFilterLedgeSpans: what it reads *)

Lemma chains_upd_column_at solid i G :
  map geom (G (column solid i)) = map geom (column solid i) →
  chains (upd_column solid i G) = chains solid.
Proof.
  intros HG.
  rewrite (upd_column_ext solid i G (λ _, G (column solid i))) by done.
  unfold chains, upd_column. simpl.
  apply list_eq. intros j. rewrite !list_lookup_fmap.
  destruct (decide (j = Z.to_nat i)) as [->|Hne].
  - rewrite list_lookup_alter_eq. unfold column in *.
    destruct (spans solid !! Z.to_nat i); simpl in *; [by rewrite HG|done].
  - by rewrite list_lookup_alter_ne.
Qed.

Section LedgeReads.
Context {hdr : RecastHeader}.

(** The scan of a neighbour column reads [smin] and [smax] only. *)
Lemma ledge_rest_geom wh wc bot top ns : ∀ ns' sc,
  map geom ns = map geom ns' →
  ledge_rest wh wc bot top ns sc = ledge_rest wh wc bot top ns' sc.
Proof.
  induction ns as [|n ns IH]; intros [|n' ns'] sc E; simpl in *; try done.
  injection E as E1 E2 E3.
  rewrite E2, (next_smin_geom ns ns') by done. by apply IH.
Qed.

Lemma ledge_dir_chains wh wc w h st st' x y bot top sc dir :
  chains st = chains st' →
  ledge_dir wh wc w h st x y bot top sc dir
  = ledge_dir wh wc w h st' x y bot top sc dir.
Proof.
  intros E. unfold ledge_dir. destruct (out_of_bounds _ _ _ _); [done|].
  pose proof (chains_column st st'
    (x + rcGetDirOffsetX dir + (y + rcGetDirOffsetY dir) * w) E) as Ec.
  rewrite (next_smin_geom _ _ Ec). by apply ledge_rest_geom.
Qed.

Lemma ledge_scan_dirs_chains wh wc w h st st' x y bot top dirs :
  chains st = chains st' →
  ledge_scan_dirs wh wc w h st x y bot top dirs
  = ledge_scan_dirs wh wc w h st' x y bot top dirs.
Proof.
  intros E. unfold ledge_scan_dirs.
  generalize {| minh := MAX_HEIGHT; asmin := bot; asmax := bot |} as sc.
  induction dirs as [|d dirs IH]; intros sc; simpl; [done|].
  by rewrite (ledge_dir_chains _ _ _ _ st st'), IH.
Qed.

Lemma ledge_scan_chains wh wc w h st st' x y bot top :
  chains st = chains st' →
  ledge_scan wh wc w h st x y bot top
  = ledge_scan wh wc w h st' x y bot top.
Proof. apply ledge_scan_dirs_chains. Qed.

Lemma ledge_decide_geom wh wc w h solid x y s top :
  geom (ledge_decide wh wc w h solid x y s top) = geom s.
Proof.
  unfold ledge_decide. destruct (_ =? _); [done|]. by destruct (ledge_marks _ _).
Qed.

(** ** rcFilterLedgeSpans: the loops *)

Lemma ledge_span_spec wh wc w h x y solid st pre s rest :
  chains st = chains solid →
  column st (x + y * w) = pre ++ s :: rest →
  ledge_span wh wc w h x y st (length pre)
  = upd_column st (x + y * w)
      (λ _, pre ++ ledge_decide wh wc w h solid x y s (next_smin rest)
                   :: rest).
Proof.
  intros HQ Hcol. unfold ledge_span, ledge_decide.
  rewrite (span_at_middle _ _ _ _ _ Hcol), (span_at_above _ _ _ _ _ Hcol).
  destruct (_ =? _); [by apply keep_at|].
  rewrite (ledge_scan_chains _ _ _ _ st solid) by done.
  destruct (ledge_marks _ _).
  - by apply set_area_at.
  - by apply keep_at.
Qed.

Lemma ledge_column_spec wh wc w h x y solid st :
  chains st = chains solid →
  ledge_column wh wc w h x y st
  = upd_column st (x + y * w)
      (chain_map (ledge_decide wh wc w h solid x y)).
Proof.
  intros HQ. unfold ledge_column.
  apply (column_loop _ _ _ (λ st, chains st = chains solid));
    auto using ledge_decide_geom.
  - intros. by apply ledge_span_spec.
  - intros st' c HQ' Hc. rewrite <- HQ'. by apply chains_upd_column_at.
Qed.

Lemma ledge_snapshot_eq wh wc solid :
  rcFilterLedgeSpans wh wc solid = ledge_snapshot wh wc solid.
Proof.
  unfold rcFilterLedgeSpans, ledge_snapshot. rewrite for_each_cell_visit.
  apply (visit_row_major_snapshot _ _ _ _ (λ st, chains st = chains solid));
    auto.
  - intros. by apply ledge_column_spec.
  - intros st i G HQ HG. rewrite <- HQ. by apply chains_upd_column.
  - intros. apply chain_map_geom. intros. apply ledge_decide_geom.
Qed.

Lemma ledge_visit_perm wh wc cells solid :
  cells ≡ₚ row_major (width solid) (height solid) →
  ledge_visit wh wc cells solid = rcFilterLedgeSpans wh wc solid.
Proof.
  intros Hp. unfold rcFilterLedgeSpans, ledge_visit.
  rewrite for_each_cell_visit.
  apply (visit_cells_perm _ _ _
           (λ x y, chain_map (ledge_decide wh wc (width solid) (height solid)
                                           solid x y))
           (λ st, chains st = chains solid)); auto.
  - intros. by apply ledge_column_spec.
  - intros st i G HQ HG. rewrite <- HQ. by apply chains_upd_column.
  - intros. apply chain_map_geom. intros. apply ledge_decide_geom.
Qed.

Lemma ledge_span_after wh wc solid x y k :
  in_grid (width solid) (height solid) x y →
  span_at (rcFilterLedgeSpans wh wc solid) (x + y * width solid) k
  = (λ s, ledge_decide wh wc (width solid) (height solid) solid x y s
            (from_option smin MAX_HEIGHT
               (span_at solid (x + y * width solid) (S k))))
    <$> span_at solid (x + y * width solid) k.
Proof.
  intros Hg. unfold span_at. rewrite ledge_snapshot_eq.
  unfold ledge_snapshot. rewrite column_snapshot_map by done.
  apply chain_map_lookup.
Qed.

End LedgeReads.

(** ** Running minima and maxima *)

Lemma running_min_app a l1 l2 :
  running_min a (l1 ++ l2) = running_min (running_min a l1) l2.
Proof. apply foldl_app. Qed.

Lemma running_max_app a l1 l2 :
  running_max a (l1 ++ l2) = running_max (running_max a l1) l2.
Proof. apply foldl_app. Qed.

Lemma running_min_lt l : ∀ a t,
  running_min a l < t ↔ a < t ∨ Exists (λ v, v < t) l.
Proof.
  induction l as [|v l IH]; intros a t; simpl.
  - rewrite Exists_nil. tauto.
  - unfold running_min in *. simpl.
    rewrite IH, Exists_cons, Z.min_lt_iff. tauto.
Qed.

(** For [0 <= walkableClimb] the start value [MAX_HEIGHT] of [minh] never
    decides the first test: [minh] is below [-walkableClimb] exactly when
    one of the values folded into it is. *)
Lemma running_min_sentinel l wc :
  0 ≤ wc →
  running_min MAX_HEIGHT l < - wc ↔ Exists (λ v, v < - wc) l.
Proof.
  intros Hwc. rewrite running_min_lt. unfold MAX_HEIGHT.
  split; [intros [?|?]; [lia|done]|by right].
Qed.

Lemma running_min_const l a :
  Forall (λ v, v = a) l → running_min a l = a.
Proof.
  induction 1 as [|v l -> _ IH]; [done|].
  unfold running_min in *. simpl. by rewrite Z.min_id.
Qed.

Lemma running_max_const l a :
  Forall (λ v, v = a) l → running_max a l = a.
Proof.
  induction 1 as [|v l -> _ IH]; [done|].
  unfold running_max in *. simpl. by rewrite Z.max_id.
Qed.

(** ** rcFilterLedgeSpans: the scan, in the words of the specification *)

Section LedgeRule.
Context {hdr : RecastHeader}.

Lemma filter_bool_cons {A} (p : A → bool) a (l : list A) :
  filter (λ a, p a) (a :: l)
  = if p a then a :: filter (λ a, p a) l else filter (λ a, p a) l.
Proof. rewrite filter_cons. by destruct (p a). Qed.

Lemma neighbour_outside w h solid x y d :
  inside w h x y d = false → neighbour w h solid x y d = None.
Proof.
  unfold inside, neighbour. intros E%negb_false_iff. by rewrite E.
Qed.

Lemma filter_sufficient_cons wh bot top c (l : list (Z * Z)) :
  filter (λ c, sufficient wh bot top c) (c :: l)
  = if sufficient wh bot top c
    then c :: filter (λ c, sufficient wh bot top c) l
    else filter (λ c, sufficient wh bot top c) l.
Proof. rewrite filter_cons. by destruct (sufficient wh bot top c). Qed.

Lemma filter_accessible_cons wc bot c (l : list (Z * Z)) :
  filter (λ c, accessible wc bot c) (c :: l)
  = if accessible wc bot c
    then c :: filter (λ c, accessible wc bot c) l
    else filter (λ c, accessible wc bot c) l.
Proof. rewrite filter_cons. by destruct (accessible wc bot c). Qed.

Lemma sufficient_code wh bot top nbot ntop :
  (rcMin top ntop - rcMax bot nbot >? wh)
  = sufficient wh bot top (nbot, ntop).
Proof. unfold sufficient. simpl. by rewrite rcMin_min, rcMax_max. Qed.

Lemma accessible_code wc bot nbot ntop :
  (rcAbs (nbot - bot) <=? wc) = accessible wc bot (nbot, ntop).
Proof. unfold accessible. simpl. by rewrite rcAbs_abs. Qed.

Lemma ledge_rest_spec wh wc bot top ns : ∀ sc,
  let cs := filter (λ c, sufficient wh bot top c) (real_candidates ns) in
  let hs := fst <$> filter (λ c, accessible wc bot c) cs in
  ledge_rest wh wc bot top ns sc
  = {| minh := running_min (minh sc) ((λ c, c.1 - bot) <$> cs);
       asmin := running_min (asmin sc) hs;
       asmax := running_max (asmax sc) hs |}.
Proof.
  induction ns as [|n ns IH]; intros sc; simpl.
  - by destruct sc.
  - rewrite IH. clear IH. rewrite filter_sufficient_cons.
    rewrite (sufficient_code _ _ _ (smax n) (next_smin ns)).
    rewrite (accessible_code _ _ (smax n) (next_smin ns)).
    destruct (sufficient _ _ _ _); [|done].
    rewrite filter_accessible_cons, rcMin_min.
    destruct (accessible _ _ _); simpl; [|done].
    unfold running_min, running_max. simpl. f_equal.
    + f_equal. destruct (Z.ltb_spec (smax n) (asmin sc)); lia.
    + f_equal. rewrite Z.gtb_ltb.
      destruct (Z.ltb_spec (asmax sc) (smax n)); lia.
Qed.

Lemma int_wrap_fits z : fits_int z → int_wrap z = z.
Proof.
  unfold fits_int, int_wrap. intros Hz.
  rewrite Z.mod_small by lia. lia.
Qed.

Lemma int_neg_fits a : fits_int (- a) → int_neg a = - a.
Proof.
  unfold fits_int, int_neg. intros Ha.
  destruct (Z.eqb_spec a (- 2 ^ 31)); lia.
Qed.

Lemma int_neg_nonneg a : 0 ≤ a → int_neg a = - a.
Proof.
  unfold int_neg. intros Ha. destruct (Z.eqb_spec a (- 2 ^ 31)); lia.
Qed.

Lemma int_sub_fits a b : fits_int (a - b) → int_sub a b = a - b.
Proof. apply int_wrap_fits. Qed.

Lemma ledge_dir_out wh wc w h solid x y bot top sc dir :
  out_of_bounds w h (x + rcGetDirOffsetX dir) (y + rcGetDirOffsetY dir)
    = true →
  ledge_dir wh wc w h solid x y bot top sc dir
  = {| minh := Z.min (minh sc) (int_sub (int_neg wc) bot);
       asmin := asmin sc; asmax := asmax sc |}.
Proof. intros E. unfold ledge_dir. by rewrite E, rcMin_min. Qed.

Lemma ledge_dir_spec wh wc w h solid x y bot top sc dir :
  let hs := dir_accessible false wh wc w h solid x y bot top dir in
  ledge_dir wh wc w h solid x y bot top sc dir
  = {| minh := running_min (minh sc)
                 (dir_folded wh wc w h solid x y bot top dir);
       asmin := running_min (asmin sc) hs;
       asmax := running_max (asmax sc) hs |}.
Proof.
  unfold ledge_dir, dir_folded, dir_accessible, neighbour.
  destruct (out_of_bounds _ _ _ _); simpl.
  - by rewrite rcMin_min.
  - rewrite ledge_rest_spec. simpl.
    rewrite (sufficient_code _ _ _ (int_neg wc) (next_smin _)).
    destruct (sufficient _ _ _ _); simpl; by rewrite ?rcMin_min.
Qed.

Lemma ledge_scan_dirs_from wh wc w h solid x y bot top dirs : ∀ sc,
  let hs := accessible_heights false wh wc w h solid x y bot top dirs in
  foldl (ledge_dir wh wc w h solid x y bot top) sc dirs
  = {| minh := running_min (minh sc)
                 (folded wh wc w h solid x y bot top dirs);
       asmin := running_min (asmin sc) hs;
       asmax := running_max (asmax sc) hs |}.
Proof.
  induction dirs as [|d dirs IH]; intros sc; simpl.
  - by destruct sc.
  - rewrite IH, ledge_dir_spec. simpl.
    unfold folded, accessible_heights. csimpl.
    by rewrite !running_min_app, running_max_app.
Qed.

Lemma ledge_scan_dirs_spec wh wc w h solid x y bot top dirs :
  let hs := accessible_heights false wh wc w h solid x y bot top dirs in
  ledge_scan_dirs wh wc w h solid x y bot top dirs
  = {| minh := running_min MAX_HEIGHT
                 (folded wh wc w h solid x y bot top dirs);
       asmin := running_min bot hs;
       asmax := running_max bot hs |}.
Proof. apply ledge_scan_dirs_from. Qed.

(** Where nothing wraps, the code folds into [minh] the values the
    specification names. *)
Lemma dir_folded_exact wh wc w h solid x y bot top dir :
  fits_int (- wc) → fits_int (- wc - bot) →
  dir_folded wh wc w h solid x y bot top dir
  = dir_drops wh wc w h solid x y bot top dir.
Proof.
  intros Hneg Hsub. unfold dir_folded, dir_drops.
  rewrite (int_neg_fits wc), int_sub_fits by done.
  destruct (neighbour _ _ _ _ _ _) as [ns|]; [|done].
  rewrite filter_sufficient_cons. unfold virtual_candidate.
  by destruct (sufficient _ _ _ _).
Qed.

Lemma folded_exact wh wc w h solid x y bot top dirs :
  fits_int (- wc) → fits_int (- wc - bot) →
  folded wh wc w h solid x y bot top dirs
  = drops wh wc w h solid x y bot top dirs.
Proof.
  intros Hneg Hsub. unfold folded, drops.
  induction dirs as [|d dirs IH]; csimpl; [done|].
  by rewrite IH, dir_folded_exact.
Qed.

Lemma ledge_marks_true wc sc :
  ledge_marks wc sc = true
  ↔ minh sc < int_neg wc ∨ asmax sc - asmin sc > wc.
Proof.
  unfold ledge_marks. rewrite Z.gtb_ltb.
  destruct (Z.ltb_spec (minh sc) (int_neg wc));
    destruct (Z.ltb_spec wc (asmax sc - asmin sc)); split;
    (done || lia || (intros; lia)).
Qed.

Lemma ledge_marks_rule wh wc w h solid x y bot top :
  fits_int (- wc) → fits_int (- wc - bot) →
  ledge_marks wc (ledge_scan wh wc w h solid x y bot top) = true
  ↔ ledge_rule false wh wc w h solid x y bot top.
Proof.
  intros Hneg Hsub. unfold ledge_scan, ledge_rule.
  rewrite ledge_marks_true, ledge_scan_dirs_spec. cbn [minh asmin asmax].
  by rewrite folded_exact, int_neg_fits.
Qed.

(** Above height 0 the virtual span is never within [walkableClimb]. *)
Lemma dir_accessible_virtual wh wc w h solid x y bot top dir :
  0 < bot →
  dir_accessible true wh wc w h solid x y bot top dir
  = dir_accessible false wh wc w h solid x y bot top dir.
Proof.
  intros Hbot. unfold dir_accessible.
  destruct (neighbour _ _ _ _ _ _) as [ns|]; [|done].
  rewrite filter_sufficient_cons. destruct (sufficient _ _ _ _); [|done].
  rewrite filter_accessible_cons.
  replace (accessible wc bot (virtual_candidate wc ns)) with false; [done|].
  unfold accessible, virtual_candidate. simpl. symmetry.
  apply Z.leb_gt. lia.
Qed.

Lemma accessible_heights_virtual wh wc w h solid x y bot top dirs :
  0 < bot →
  accessible_heights true wh wc w h solid x y bot top dirs
  = accessible_heights false wh wc w h solid x y bot top dirs.
Proof.
  intros Hbot. unfold accessible_heights.
  induction dirs as [|d dirs IH]; csimpl; [done|].
  by rewrite IH, dir_accessible_virtual.
Qed.

Lemma ledge_rule_virtual wh wc w h solid x y bot top :
  0 < bot →
  ledge_rule true wh wc w h solid x y bot top
  ↔ ledge_rule false wh wc w h solid x y bot top.
Proof.
  intros Hbot. unfold ledge_rule.
  by rewrite accessible_heights_virtual.
Qed.

(** Directions outside the grid offer nothing to [asmin] and [asmax]. *)
Lemma accessible_heights_inside wh wc w h solid x y bot top dirs :
  accessible_heights false wh wc w h solid x y bot top
    (filter (λ d, inside w h x y d) dirs)
  = accessible_heights false wh wc w h solid x y bot top dirs.
Proof.
  unfold accessible_heights.
  induction dirs as [|d dirs IH]; csimpl; [done|].
  rewrite filter_bool_cons.
  destruct (inside w h x y d) eqn:E; csimpl; rewrite IH; [done|].
  unfold dir_accessible. by rewrite (neighbour_outside _ _ _ _ _ _ E).
Qed.

(** With the span top at 0 they fold [-walkableClimb] into [minh], which
    is not below [-walkableClimb]. *)
Lemma drops_inside wh wc w h solid x y top dirs :
  Exists (λ v, v < - wc) (drops wh wc w h solid x y 0 top dirs)
  ↔ Exists (λ v, v < - wc)
      (drops wh wc w h solid x y 0 top (filter (λ d, inside w h x y d) dirs)).
Proof.
  unfold drops.
  induction dirs as [|d dirs IH]; csimpl; [done|].
  rewrite filter_bool_cons, Exists_app, IH.
  destruct (inside w h x y d) eqn:E; csimpl.
  - by rewrite Exists_app.
  - unfold dir_drops. rewrite (neighbour_outside _ _ _ _ _ _ E).
    rewrite Exists_cons, Exists_nil.
    assert (¬ (- wc - 0 < - wc)) by lia. tauto.
Qed.

Lemma running_min_min l : ∀ a v,
  running_min (Z.min a v) l = Z.min (running_min a l) v.
Proof.
  unfold running_min.
  induction l as [|u l IH]; intros a v; simpl; [done|].
  rewrite <- IH. f_equal. lia.
Qed.

(** What the directions that leave the grid add to [minh]: nothing when
    there is none, and [-walkableClimb - bot] otherwise. *)
Lemma drops_outside wh wc w h solid x y bot top dirs : ∀ a,
  running_min a (drops wh wc w h solid x y bot top dirs)
  = let m := running_min a
               (drops wh wc w h solid x y bot top
                  (filter (λ d, inside w h x y d) dirs)) in
    if forallb (inside w h x y) dirs then m else Z.min m (- wc - bot).
Proof.
  unfold drops.
  induction dirs as [|d dirs IH]; intros a; csimpl; [done|].
  rewrite filter_bool_cons, running_min_app.
  destruct (inside w h x y d) eqn:E; csimpl.
  - rewrite running_min_app. apply IH.
  - unfold dir_drops at 1. rewrite (neighbour_outside _ _ _ _ _ _ E).
    unfold running_min at 2. simpl. fold (running_min (Z.min a (- wc - bot))).
    rewrite IH. cbv zeta. rewrite running_min_min.
    destruct (forallb _ _); lia.
Qed.

(** The heights within [walkableClimb] are heights of surfaces. *)
Lemma accessible_heights_surfaces wh wc w h solid x y bot top dirs v :
  v ∈ accessible_heights false wh wc w h solid x y bot top dirs →
  ∃ c, c ∈ surfaces wh w h solid x y bot top dirs
       ∧ c.1 = v ∧ Z.abs (v - bot) ≤ wc.
Proof.
  unfold accessible_heights, surfaces. rewrite list_elem_of_bind.
  intros (d & Hv & Hd). unfold dir_accessible in Hv.
  destruct (neighbour w h solid x y d) as [ns|] eqn:En;
    [|by apply elem_of_nil in Hv].
  apply list_elem_of_fmap in Hv as (c & -> & Hc).
  apply list_elem_of_filter in Hc as [Hacc Hc].
  exists c. split; [|split; [done|]].
  - apply list_elem_of_bind. exists d. split; [|done].
    unfold dir_surfaces. by rewrite En.
  - unfold accessible in Hacc. apply Is_true_true in Hacc.
    by apply Z.leb_le in Hacc.
Qed.

End LedgeRule.

(** ** rcFilterLowHangingWalkableObstacles *)

Section LowHanging.
Context {hdr : RecastHeader}.

Lemma low_decide_geom wc prev s : geom (low_decide wc prev s) = geom s.
Proof.
  unfold low_decide. destruct prev; [|done]. by destruct (_ && _).
Qed.

Lemma low_decide_walkable wc prev s :
  area s ≠ RC_NULL_AREA → low_decide wc prev s = s.
Proof.
  intros Hs%Z.eqb_neq. unfold low_decide. destruct prev; [|done].
  by rewrite Hs.
Qed.

Lemma low_chain_geom wc (c : list rcSpan) : ∀ prev,
  map geom (low_chain wc prev c) = map geom c.
Proof.
  induction c as [|s c IH]; intros prev; simpl; [done|].
  by rewrite low_decide_geom, IH.
Qed.

Lemma low_chain_lookup wc (c : list rcSpan) : ∀ prev k,
  low_chain wc prev c !! k
  = low_decide wc (match k with O => prev | S j => c !! j end) <$> c !! k.
Proof.
  induction c as [|s c IH]; intros prev [|k]; simpl; [done..|].
  apply IH.
Qed.

(** One iteration keeps the invariant and decides its span from the
    state before the pass. *)
Lemma lowHanging_span_step wc i ls pre prev s rest :
  column (low_solid ls) i = pre ++ s :: rest →
  low_inv ls pre prev →
  low_solid (lowHanging_span wc i ls (length pre))
  = upd_column (low_solid ls) i (λ _, pre ++ low_decide wc prev s :: rest)
  ∧ low_inv (lowHanging_span wc i ls (length pre))
            (pre ++ [low_decide wc prev s]) (Some s).
Proof.
  intros Hcol Hinv.
  (* the store after the iteration *)
  assert (∃ solid',
    lowHanging_span wc i ls (length pre)
    = {| low_solid := solid'; ps := Some (length pre);
         previousWalkable := negb (area s =? RC_NULL_AREA);
         previousArea :=
           from_option area (area s) (span_at solid' i (length pre)) |}
    ∧ solid'
      = upd_column (low_solid ls) i
          (λ _, pre ++ low_decide wc prev s :: rest))
    as (solid' & -> & Hs).
  { unfold lowHanging_span. rewrite (span_at_middle _ _ _ _ _ Hcol).
    eexists. split; [reflexivity|].
    destruct prev as [p0|]; simpl in Hinv.
    - destruct Hinv as (pre' & p' & -> & Hps & Hsmax & Hw & Ha & Hkeep).
      rewrite Hps, Hw. simpl.
      rewrite <- (assoc_L (++)) in Hcol. simpl in Hcol.
      rewrite (span_at_middle _ _ _ _ _ Hcol).
      rewrite <- (assoc_L (++)). simpl.
      rewrite negb_involutive, rcAbs_abs, Hsmax, Ha.
      destruct (area s =? RC_NULL_AREA); simpl; [|by apply keep_at].
      destruct (area p0 =? RC_NULL_AREA) eqn:Ep; simpl;
        [by apply keep_at|].
      apply Z.eqb_neq in Ep. rewrite (Hkeep Ep).
      destruct (_ <=? wc); [|by apply keep_at].
      pose proof (set_area_at (low_solid ls) i (pre' ++ [p']) s rest
                    (area p0)) as Hset.
      rewrite length_app, <- (assoc_L (++)) in Hset. simpl in Hset.
      rewrite length_app. simpl. rewrite Hset by done.
      by rewrite <- (assoc_L (++)).
    - destruct Hinv as [-> Hw]. rewrite Hw, andb_false_r.
      by apply keep_at. }
  simpl. split; [done|].
  exists pre, (low_decide wc prev s).
  assert (span_at solid' i (length pre) = Some (low_decide wc prev s))
    as Hat.
  { apply (span_at_middle _ _ _ _ rest). rewrite Hs.
    rewrite column_upd_column_eq.
    by rewrite (column_cons_lookup _ _ _ _ _ Hcol). }
  simpl. rewrite Hat. simpl. split_and!; try done.
  - pose proof (low_decide_geom wc prev s) as Hg. by injection Hg.
  - intros Hne. by rewrite low_decide_walkable.
Qed.

Lemma low_loop_from wc i rest : ∀ pre prev ls,
  column (low_solid ls) i = pre ++ rest →
  low_inv ls pre prev →
  low_solid
    (foldl (lowHanging_span wc i) ls (seq (length pre) (length rest)))
  = upd_column (low_solid ls) i (λ _, pre ++ low_chain wc prev rest).
Proof.
  induction rest as [|s rest IH]; intros pre prev ls Hcol Hinv; simpl.
  - by apply keep_at.
  - destruct (lowHanging_span_step wc i ls pre prev s rest Hcol Hinv)
      as [Hs Hinv'].
    specialize (IH (pre ++ [low_decide wc prev s]) (Some s)
                   (lowHanging_span wc i ls (length pre))).
    rewrite length_app in IH. simpl in IH. rewrite Nat.add_1_r in IH.
    rewrite IH; [|clear IH|done].
    + rewrite Hs, upd_column_twice. unfold compose.
      by rewrite <- (assoc_L (++)).
    + rewrite Hs, column_upd_column_eq.
      rewrite (column_cons_lookup _ _ _ _ _ Hcol).
      by rewrite <- (assoc_L (++)).
Qed.

Lemma lowHanging_column_spec wc w h x y st :
  lowHanging_column wc w h x y st
  = upd_column st (x + y * w) (low_chain wc None).
Proof.
  unfold lowHanging_column, chain_positions.
  pose proof (low_loop_from wc (x + y * w) (column st (x + y * w)) [] None
    {| low_solid := st; ps := None; previousWalkable := false;
       previousArea := RC_NULL_AREA |} eq_refl) as E.
  simpl in E. rewrite E by done. by apply upd_column_ext.
Qed.

Lemma lowHanging_snapshot wc solid :
  rcFilterLowHangingWalkableObstacles wc solid
  = snapshot_map (λ _ _, low_chain wc None) solid.
Proof.
  unfold rcFilterLowHangingWalkableObstacles. rewrite for_each_cell_visit.
  apply (visit_row_major_snapshot _ _ _ _ (λ _, True)); auto.
  - intros. apply lowHanging_column_spec.
  - intros. apply low_chain_geom.
Qed.

Lemma lowHanging_span_after wc solid x y k :
  in_grid (width solid) (height solid) x y →
  span_at (rcFilterLowHangingWalkableObstacles wc solid)
          (x + y * width solid) k
  = low_decide wc
      (match k with
       | O => None
       | S j => span_at solid (x + y * width solid) j
       end)
    <$> span_at solid (x + y * width solid) k.
Proof.
  intros Hg. unfold span_at. rewrite lowHanging_snapshot.
  rewrite column_snapshot_map by done. apply low_chain_lookup.
Qed.

End LowHanging.

(** * The claims of the specification *)

(** The expressions of the ledge scan do not overflow a 32-bit [int] when
    the span bounds are in range and the climb is below 2^30. *)
Lemma ledge_arith_fits_int wc bot top nbot ntop :
  0 ≤ bot ≤ MAX_HEIGHT → 0 ≤ top ≤ MAX_HEIGHT → 0 ≤ ntop ≤ MAX_HEIGHT →
  0 ≤ nbot ≤ MAX_HEIGHT ∨ nbot = - wc →
  - 2 ^ 30 ≤ wc ≤ 2 ^ 30 →
  fits_int (- wc) ∧ fits_int (- wc - bot) ∧ fits_int (nbot - bot)
  ∧ fits_int (rcMin top ntop - rcMax bot nbot).
Proof.
  unfold fits_int, MAX_HEIGHT. rewrite rcMin_min, rcMax_max. lia.
Qed.

Section Claims.
Context {hdr : RecastHeader}.

(** C1, as amended.  Where the [int] arithmetic of the scan does not wrap
    ([-walkableClimb] and [-walkableClimb - bot] fit a 32-bit [int]), a
    span [s] that is walkable when the ledge pass examines it ends up not
    walkable exactly when [minh < -walkableClimb] or
    [asmax - asmin > walkableClimb], where [minh] is the running minimum of
    the boundary values and of [nbot - bot] over the candidates (virtual
    span included) with enough overlap, and [asmin]/[asmax] start at [bot]
    and are updated with [nbot] of the REAL neighbour spans with enough
    overlap and [|nbot - bot| <= walkableClimb]; the virtual span never
    updates them.  Otherwise the span is unchanged.  For a span with
    [smax > 0] the rule with the virtual span taking part in
    [asmin]/[asmax] is the same rule. *)
Theorem ledge_criterion_real_spans wh wc solid x y k s :
  let w := width solid in
  let h := height solid in
  let i := x + y * w in
  let top := from_option smin MAX_HEIGHT (span_at solid i (S k)) in
  in_grid w h x y →
  span_at solid i k = Some s →
  area s ≠ RC_NULL_AREA →
  fits_int (- wc) →
  fits_int (- wc - smax s) →
  ledge_criterion false wh wc solid x y k s
  ∧ (¬ ledge_rule false wh wc w h solid x y (smax s) top →
     span_at (rcFilterLedgeSpans wh wc solid) i k = Some s)
  ∧ (0 < smax s → ledge_criterion true wh wc solid x y k s).
Proof.
  intros w h i top Hg Hs Ha Hneg Hsub.
  assert (ledge_criterion false wh wc solid x y k s
          ∧ (¬ ledge_rule false wh wc w h solid x y (smax s) top →
             span_at (rcFilterLedgeSpans wh wc solid) i k = Some s))
    as [Hc Hkeep].
  { unfold ledge_criterion. fold w h i top.
    unfold i, w. rewrite ledge_span_after by done. fold w h i top.
    rewrite Hs. simpl. unfold ledge_decide.
    apply Z.eqb_neq in Ha as Ha'. rewrite Ha'.
    rewrite <- ledge_marks_rule by done.
    destruct (ledge_marks _ _); simpl; split; try done.
    split; [|done]. intros E. by injection E. }
  split_and!; try done.
  intros Hpos. unfold ledge_criterion in *. fold w h i top in Hc |- *.
  by rewrite ledge_rule_virtual.
Qed.

(** C3.  Where the [int] arithmetic does not wrap, the directions that
    leave the grid add exactly [-walkableClimb - bot] to the running
    minimum: [minh] at the end of the scan is the minimum [m] over the
    candidates of the directions inside the grid, lowered to
    [-walkableClimb - bot] when a direction leaves the grid.  For a
    walkable span with [bot = 0] that value is [-walkableClimb], which is
    not below [-walkableClimb]: the span ends up not walkable exactly when
    the rule holds with the directions outside the grid left out, and is
    unchanged otherwise.  Being at the boundary alone never marks it. *)
Theorem ledge_boundary_not_ledge wh wc solid x y k s :
  let w := width solid in
  let h := height solid in
  let i := x + y * w in
  let top := from_option smin MAX_HEIGHT (span_at solid i (S k)) in
  let bot := smax s in
  let m :=
    running_min MAX_HEIGHT
      (drops wh wc w h solid x y bot top
         (filter (λ d, inside w h x y d) (seqZ 0 4))) in
  in_grid w h x y →
  span_at solid i k = Some s →
  area s ≠ RC_NULL_AREA →
  fits_int (- wc) →
  fits_int (- wc - bot) →
  minh (ledge_scan wh wc w h solid x y bot top)
  = (if forallb (inside w h x y) (seqZ 0 4) then m
     else Z.min m (- wc - bot))
  ∧ (bot = 0 →
     ¬ (- wc - bot < - wc)
     ∧ (area <$> span_at (rcFilterLedgeSpans wh wc solid) i k
          = Some RC_NULL_AREA
        ↔ ledge_rule_inside wh wc w h solid x y 0 top)
     ∧ (¬ ledge_rule_inside wh wc w h solid x y 0 top →
        span_at (rcFilterLedgeSpans wh wc solid) i k = Some s)).
Proof.
  intros w h i top bot m Hg Hs Ha Hneg Hsub. split.
  - unfold ledge_scan. rewrite ledge_scan_dirs_spec. cbn [minh].
    rewrite folded_exact by done. apply drops_outside.
  - intros Hbot.
    assert (ledge_rule false wh wc w h solid x y 0 top
            ↔ ledge_rule_inside wh wc w h solid x y 0 top) as Hrule.
    { unfold ledge_rule, ledge_rule_inside.
      rewrite accessible_heights_inside, !running_min_lt.
      by rewrite <- drops_inside. }
    unfold i, w. rewrite ledge_span_after by done. fold w h i top.
    rewrite Hs. simpl. unfold ledge_decide. fold bot. rewrite Hbot.
    rewrite Hbot in Hsub.
    apply Z.eqb_neq in Ha as Ha'. rewrite Ha'. rewrite <- Hrule.
    rewrite <- (ledge_marks_rule wh wc w h solid x y 0 top) by done.
    destruct (ledge_marks _ _); simpl; split_and!; try done; try lia.
    split; [|done]. intros E. by injection E.
Qed.

(** C4.  In the low-hanging-obstacle pass the first span of a column is
    left as it is.  A later span is changed exactly when it is not
    walkable, the span just below it was walkable and their tops are at
    most [walkableClimb] apart; it then gets the area of the span below,
    which the pass leaves as it is.  A walkable span is never changed. *)
Theorem lowHanging_rule wc solid x y k s :
  let i := x + y * width solid in
  let after := rcFilterLowHangingWalkableObstacles wc solid in
  in_grid (width solid) (height solid) x y →
  span_at solid i k = Some s →
  (k = O → span_at after i k = Some s)
  ∧ (∀ j p, k = S j → span_at solid i j = Some p →
       let rescued :=
         area s = RC_NULL_AREA ∧ area p ≠ RC_NULL_AREA
         ∧ Z.abs (smax s - smax p) ≤ wc in
       (rescued →
          span_at after i k = Some (write_area (area p) s)
          ∧ span_at after i j = Some p
          ∧ area (write_area (area p) s) ≠ RC_NULL_AREA)
       ∧ (¬ rescued → span_at after i k = Some s))
  ∧ (area s ≠ RC_NULL_AREA → span_at after i k = Some s).
Proof.
  intros i after Hg Hs. unfold after, i.
  rewrite !lowHanging_span_after by done. fold i.
  rewrite Hs. simpl. split_and!.
  - by intros ->.
  - intros j p -> Hp. rewrite Hp. unfold low_decide at 1 2.
    destruct (Z.eqb_spec (area s) RC_NULL_AREA) as [Es|Es];
      destruct (Z.eqb_spec (area p) RC_NULL_AREA) as [Ep|Ep];
      destruct (Z.leb_spec (Z.abs (smax s - smax p)) wc) as [El|El];
      simpl; split; try done; try (intros (? & ? & ?); done || lia);
      try (intros Hn; exfalso; apply Hn; done).
    intros _. split_and!; try done.
    unfold i. rewrite lowHanging_span_after by done. fold i.
    rewrite Hp. simpl. by rewrite low_decide_walkable.
  - intros Ha. by rewrite low_decide_walkable.
Qed.

(** C5.  Propagation is single-hop: above a walkable span [a], of two
    consecutive spans [b] and [c] that are not walkable, with the top of
    [b] within [walkableClimb] of the top of [a], only [b] becomes
    walkable; [c] stays as it was, whatever its distance to [b]. *)
Theorem lowHanging_single_hop wc solid x y k a b c :
  let i := x + y * width solid in
  let after := rcFilterLowHangingWalkableObstacles wc solid in
  in_grid (width solid) (height solid) x y →
  span_at solid i k = Some a →
  span_at solid i (S k) = Some b →
  span_at solid i (S (S k)) = Some c →
  area a ≠ RC_NULL_AREA → area b = RC_NULL_AREA → area c = RC_NULL_AREA →
  Z.abs (smax b - smax a) ≤ wc →
  span_at after i (S k) = Some (write_area (area a) b)
  ∧ area (write_area (area a) b) ≠ RC_NULL_AREA
  ∧ span_at after i (S (S k)) = Some c.
Proof.
  intros i after Hg Ha Hb Hc Hwa Hwb Hwc Hgap. unfold after, i.
  rewrite !lowHanging_span_after by done. fold i.
  rewrite Ha, Hb, Hc. simpl.
  apply Z.eqb_neq in Hwa as Hwa'. apply Z.leb_le in Hgap.
  rewrite Hwb, Hwc, Z.eqb_refl, Hwa', Hgap. simpl. done.
Qed.

(** C6.  The clearance pass marks a span not walkable exactly when the
    [smin] of the span above ([MAX_HEIGHT] for the topmost) minus its
    [smax] is at most [walkableHeight], and otherwise leaves it as it is;
    so a span that is walkable after the pass has more clearance than
    [walkableHeight]. *)
Theorem lowHeight_clearance wh solid x y k s :
  let i := x + y * width solid in
  let after := rcFilterWalkableLowHeightSpans wh solid in
  let clearance :=
    from_option smin MAX_HEIGHT (span_at solid i (S k)) - smax s in
  in_grid (width solid) (height solid) x y →
  span_at solid i k = Some s →
  (clearance ≤ wh → span_at after i k = Some (write_area RC_NULL_AREA s))
  ∧ (wh < clearance → span_at after i k = Some s)
  ∧ (∀ s', span_at after i k = Some s' → area s' ≠ RC_NULL_AREA →
       from_option smin MAX_HEIGHT (span_at after i (S k)) - smax s' > wh).
Proof.
  intros i after clearance Hg Hs. unfold after, i.
  rewrite !lowHeight_span_after by done. fold i.
  rewrite Hs. simpl. unfold lowHeight_decide. fold clearance.
  destruct (Z.leb_spec clearance wh) as [E|E]; split_and!;
    try done; try (intros; lia).
  - intros s' [= <-]. simpl. done.
  - intros s' [= <-] _.
    destruct (span_at solid i (S k)) as [n|]; simpl; [|unfold clearance in E; simpl in E; lia].
    unfold clearance in E. simpl in E.
    by destruct (_ <=? _); simpl; lia.
Qed.

(** C7.  The clearance pass is idempotent. *)
Theorem lowHeight_idempotent wh solid :
  rcFilterWalkableLowHeightSpans wh
    (rcFilterWalkableLowHeightSpans wh solid)
  = rcFilterWalkableLowHeightSpans wh solid.
Proof.
  rewrite !lowHeight_snapshot. apply snapshot_map_idem.
  intros _ _ c. apply chain_map_idem.
  - apply lowHeight_decide_geom.
  - apply lowHeight_decide_idem.
Qed.

(** C9.  Each of the three passes keeps the grid size and the chains of
    all columns: the same columns, the same spans in the same order, with
    the same [smin] and [smax].  Only areas change. *)
Theorem filters_keep_structure wh wc solid :
  let keeps (after : rcHeightfield) :=
    width after = width solid ∧ height after = height solid
    ∧ chains after = chains solid in
  keeps (rcFilterLowHangingWalkableObstacles wc solid)
  ∧ keeps (rcFilterLedgeSpans wh wc solid)
  ∧ keeps (rcFilterWalkableLowHeightSpans wh solid).
Proof.
  intros keeps. unfold keeps.
  rewrite lowHanging_snapshot, ledge_snapshot_eq, lowHeight_snapshot.
  unfold ledge_snapshot.
  split_and!; try done; apply chains_snapshot_map; intros.
  - apply low_chain_geom.
  - apply chain_map_geom. intros. apply ledge_decide_geom.
  - apply chain_map_geom, lowHeight_decide_geom.
Qed.

(** C10.  The scan of the ledge pass gives the same result in any two
    stores with the same chains, so it reads no area but that of the span
    under evaluation; the in-place pass computes the snapshot semantics,
    where each span is decided from the state before the pass; and
    visiting the columns in any other order gives the same heightfield. *)
Theorem ledge_in_place_is_snapshot wh wc solid :
  let w := width solid in
  let h := height solid in
  (∀ st x y bot top,
     chains st = chains solid →
     ledge_scan wh wc w h st x y bot top
     = ledge_scan wh wc w h solid x y bot top)
  ∧ rcFilterLedgeSpans wh wc solid = ledge_snapshot wh wc solid
  ∧ (∀ cells,
       cells ≡ₚ row_major w h →
       ledge_visit wh wc cells solid = rcFilterLedgeSpans wh wc solid).
Proof.
  intros w h. split_and!.
  - intros. by apply ledge_scan_chains.
  - apply ledge_snapshot_eq.
  - intros. by apply ledge_visit_perm.
Qed.

End Claims.

(** * The claims at concrete heightfields, with the header of Recast *)

(** C8.  The low-hanging-obstacle pass and the ledge pass do not commute:
    on [scene_order], with [walkableHeight = 1] and [walkableClimb = 4],
    the obstacle of the centre column ends up not walkable when the ledge
    pass runs last and walkable when it runs first. *)
Theorem low_obstacles_ledges_do_not_commute :
  ∃ solid wh wc,
    0 < wh ∧ 0 ≤ wc
    ∧ map (map area)
        (spans (rcFilterLedgeSpans (hdr := recast_h) wh wc
                  (rcFilterLowHangingWalkableObstacles (hdr := recast_h)
                     wc solid)))
      = [[0]; [0]; [0]; [0]; [1; 0]; [0]; [0]; [0]; [0]]
    ∧ map (map area)
        (spans (rcFilterLowHangingWalkableObstacles (hdr := recast_h) wc
                  (rcFilterLedgeSpans (hdr := recast_h) wh wc solid)))
      = [[0]; [0]; [0]; [0]; [1; 1]; [0]; [0]; [0]; [0]]
    ∧ rcFilterLedgeSpans (hdr := recast_h) wh wc
        (rcFilterLowHangingWalkableObstacles (hdr := recast_h) wc solid)
      ≠ rcFilterLowHangingWalkableObstacles (hdr := recast_h) wc
          (rcFilterLedgeSpans (hdr := recast_h) wh wc solid).
Proof.
  exists scene_order, 1, 4. split_and!; [lia|lia|by vm_compute..|].
  intros E. apply (f_equal (λ hf, map (map area) (spans hf))) in E.
  vm_compute in E. discriminate E.
Qed.

(** C1 as the specification states it, with the virtual span updating
    [asmin] and [asmax], fails on [scene_virtual] for the centre span (top
    at 0, [walkableClimb = 3]): the empty column to its left makes the
    virtual span a candidate at -3 and the step to its right a surface at
    1, so the stated rule holds ([1 - (-3) > 3]), but the code keeps
    [asmin = 0] and leaves the span walkable. *)
Lemma ledge_criterion_virtual_fails :
  in_grid 3 3 1 1
  ∧ span_at scene_virtual (1 + 1 * 3) 0 = Some (Span 0 0 1)
  ∧ ledge_scan (hdr := recast_h) 1 3 3 3 scene_virtual 1 1 0 MAX_HEIGHT
    = {| minh := -3; asmin := 0; asmax := 1 |}
  ∧ accessible_heights (hdr := recast_h) true 1 3 3 3 scene_virtual 1 1 0
      MAX_HEIGHT (seqZ 0 4) = [-3; 0; 1; 0]
  ∧ ¬ ledge_criterion (hdr := recast_h) true 1 3 scene_virtual 1 1 0
        (Span 0 0 1).
Proof.
  split_and!; [by unfold in_grid|by vm_compute..|].
  unfold ledge_criterion. intros [_ Hrule].
  assert (area <$> span_at (rcFilterLedgeSpans (hdr := recast_h) 1 3
                              scene_virtual) 4 0 = Some 1) as Hkept
    by by vm_compute.
  change (width scene_virtual) with 3 in Hrule.
  change (1 + 1 * 3) with 4 in Hrule.
  rewrite Hkept in Hrule.
  assert (Some 1 = Some (RC_NULL_AREA (RecastHeader := recast_h)))
    as Habs; [|discriminate Habs].
  apply Hrule. right. by vm_compute.
Qed.

(** C2.  The code at the input of the claim.  On [scene_steep] the
    neighbours of the centre span (top at 0) offer surfaces at 0, 5, 0 and
    0, all with enough overlap; the one at 5 is further than
    [walkableClimb = 3] from the top of the span, which the documentation of
    [rcFilterLedgeSpans] (lines 75-80) calls a ledge.  The scan ends with
    [asmin = asmax = 0], not with [asmax = 5], and the pass leaves the span
    walkable. *)
Theorem ledge_steep_not_marked :
  span_at scene_steep (1 + 1 * 3) 0 = Some (Span 0 0 1)
  ∧ (surfaces (hdr := recast_h) 1 3 3 scene_steep 1 1 0 MAX_HEIGHT
       (seqZ 0 4)).*1 = [0; 5; 0; 0]
  ∧ rcAbs (0 - 5) > 3
  ∧ ledge_scan (hdr := recast_h) 1 3 3 3 scene_steep 1 1 0 MAX_HEIGHT
    = {| minh := 0; asmin := 0; asmax := 0 |}
  ∧ span_at (rcFilterLedgeSpans (hdr := recast_h) 1 3 scene_steep)
            (1 + 1 * 3) 0 = Some (Span 0 0 1).
Proof. split_and!; by vm_compute. Qed.

(** Where the arithmetic wraps: with [walkableClimb = INT_MAX] the boundary
    value [-walkableClimb - 2] of a span with its top at 2 wraps to
    [INT_MAX], [minh] stays at [MAX_HEIGHT] and the span is left walkable;
    with its top at 1 the value is [INT_MIN] and the span is marked. *)
Lemma ledge_border_wraps :
  int_sub (int_neg 2147483647) 2 = 2147483647
  ∧ minh (ledge_scan (hdr := recast_h) 1 2147483647 1 1 scene_tall 0 0 2
            MAX_HEIGHT) = MAX_HEIGHT
  ∧ rcFilterLedgeSpans (hdr := recast_h) 1 2147483647 scene_tall
    = scene_tall
  ∧ span_at (rcFilterLedgeSpans (hdr := recast_h) 1 2147483647 scene_order)
            0 0 = Some (Span 0 1 0).
Proof. split_and!; by vm_compute. Qed.

Lemma ledge_criterion_real_spans_witness :
  ledge_criterion (hdr := recast_h) false 1 3 scene_virtual 1 1 0
    (Span 0 0 1)
  ∧ span_at (rcFilterLedgeSpans (hdr := recast_h) 1 4 scene_order)
            (1 + 1 * 3) 0 = Some (Span 0 2 1)
  ∧ ledge_criterion (hdr := recast_h) true 1 4 scene_order 1 1 0
      (Span 0 2 1).
Proof.
  split_and!.
  - apply (ledge_criterion_real_spans (hdr := recast_h) 1 3 scene_virtual
             1 1 0 (Span 0 0 1));
      [by unfold in_grid|by vm_compute|simpl; lia
      |unfold fits_int; simpl; lia..].
  - apply (ledge_criterion_real_spans (hdr := recast_h) 1 4 scene_order
             1 1 0 (Span 0 2 1));
      [by unfold in_grid|by vm_compute|simpl; lia
      |unfold fits_int; simpl; lia..|].
    unfold ledge_rule. vm_compute. intros [H|H]; discriminate H.
  - apply (ledge_criterion_real_spans (hdr := recast_h) 1 4 scene_order
             1 1 0 (Span 0 2 1));
      [by unfold in_grid|by vm_compute|simpl; lia
      |unfold fits_int; simpl; lia..|].
    simpl. lia.
Defined.

Lemma ledge_boundary_not_ledge_witness :
  forallb (inside (hdr := recast_h) 2 1 0 0) (seqZ 0 4) = false
  ∧ minh (ledge_scan (hdr := recast_h) 1 2 2 1 scene_edge 0 0 0
            MAX_HEIGHT) = -2
  ∧ span_at (rcFilterLedgeSpans (hdr := recast_h) 1 2 scene_edge) 0 0
    = Some (Span 0 0 1).
Proof.
  pose proof (ledge_boundary_not_ledge (hdr := recast_h) 1 2 scene_edge
                0 0 0 (Span 0 0 1)) as H.
  cbv zeta in H.
  destruct H as [Hminh Hzero];
    [by unfold in_grid|by vm_compute|simpl; lia
    |unfold fits_int; simpl; lia..|].
  destruct (Hzero eq_refl) as (_ & _ & Hkeep).
  split_and!; [by vm_compute| |].
  - etrans; [apply Hminh|by vm_compute].
  - apply Hkeep. unfold ledge_rule_inside. vm_compute.
    intros [H|H]; discriminate H.
Defined.

Lemma lowHanging_rule_witness :
  span_at (rcFilterLowHangingWalkableObstacles (hdr := recast_h) 1
             scene_hop) 0 1 = Some (Span 0 1 1)
  ∧ span_at (rcFilterLowHangingWalkableObstacles (hdr := recast_h) 1
               scene_hop) 0 0 = Some (Span 0 0 1).
Proof.
  pose proof (lowHanging_rule (hdr := recast_h) 1 scene_hop 0 0 1
                (Span 0 1 0)) as H.
  simpl in H.
  destruct H as (_ & Hstep & _); [by unfold in_grid|by vm_compute|].
  destruct (Hstep O (Span 0 0 1) eq_refl) as [Hyes _]; [by vm_compute|].
  destruct Hyes as (Hk & Hj & _).
  - split_and!; [reflexivity|discriminate|simpl; lia].
  - split; [exact Hk|exact Hj].
Defined.

Lemma lowHanging_single_hop_witness :
  span_at (rcFilterLowHangingWalkableObstacles (hdr := recast_h) 1
             scene_hop) 0 1 = Some (Span 0 1 1)
  ∧ span_at (rcFilterLowHangingWalkableObstacles (hdr := recast_h) 1
               scene_hop) 0 2 = Some (Span 1 2 0).
Proof.
  pose proof (lowHanging_single_hop (hdr := recast_h) 1 scene_hop 0 0 0
                (Span 0 0 1) (Span 0 1 0) (Span 1 2 0)) as H.
  simpl in H.
  destruct H as (Hb & _ & Hc);
    [by unfold in_grid|by vm_compute..|discriminate|reflexivity|reflexivity
    |lia|].
  split; [exact Hb|exact Hc].
Defined.

Lemma lowHeight_clearance_witness :
  span_at (rcFilterWalkableLowHeightSpans (hdr := recast_h) 2
             scene_ceiling) 0 0 = Some (Span 0 1 0)
  ∧ span_at (rcFilterWalkableLowHeightSpans (hdr := recast_h) 2
               scene_ceiling) 0 1 = Some (Span 3 4 1).
Proof.
  split.
  - pose proof (lowHeight_clearance (hdr := recast_h) 2 scene_ceiling 0 0 0
                  (Span 0 1 1)) as H.
    simpl in H.
    destruct H as (Hlow & _ & _); [by unfold in_grid|by vm_compute|].
    apply Hlow. lia.
  - pose proof (lowHeight_clearance (hdr := recast_h) 2 scene_ceiling 0 0 1
                  (Span 3 4 1)) as H.
    simpl in H.
    destruct H as (_ & Hhigh & _); [by unfold in_grid|by vm_compute|].
    apply Hhigh. unfold MAX_HEIGHT. lia.
Defined.

Lemma ledge_in_place_is_snapshot_witness :
  reverse (row_major 3 3) ≡ₚ row_major 3 3
  ∧ ledge_visit (hdr := recast_h) 1 3 (reverse (row_major 3 3))
      scene_virtual
    = rcFilterLedgeSpans (hdr := recast_h) 1 3 scene_virtual
  ∧ ledge_scan (hdr := recast_h) 1 3 3 3
      (rcFilterLedgeSpans (hdr := recast_h) 1 3 scene_virtual)
      1 1 0 MAX_HEIGHT
    = ledge_scan (hdr := recast_h) 1 3 3 3 scene_virtual 1 1 0 MAX_HEIGHT.
Proof.
  pose proof (ledge_in_place_is_snapshot (hdr := recast_h) 1 3
                scene_virtual) as (Hreads & _ & Horder).
  split_and!.
  - apply reverse_Permutation.
  - apply Horder. apply reverse_Permutation.
  - apply Hreads. by vm_compute.
Defined.

(** * Further properties of the filters *)

(** ** Composing snapshot maps *)

Lemma snapshot_map_compose F G solid :
  snapshot_map G (snapshot_map F solid)
  = snapshot_map (λ x y c, G x y (F x y c)) solid.
Proof.
  unfold snapshot_map. simpl. f_equal.
  apply list_eq. intros j. rewrite !list_lookup_imap.
  destruct (spans solid !! j) as [c|]; simpl; [|done].
  by destruct (_ && _).
Qed.

Lemma snapshot_map_ext F G solid :
  (∀ x y c, F x y c = G x y c) →
  snapshot_map F solid = snapshot_map G solid.
Proof.
  intros E. unfold snapshot_map. f_equal.
  apply list_eq. intros j. rewrite !list_lookup_imap.
  destruct (spans solid !! j) as [c|]; simpl; [|done].
  destruct (_ && _); by rewrite ?E.
Qed.

Lemma snapshot_map_lookup_outside F solid (j : nat) :
  ¬ (0 < width solid ∧ Z.of_nat j < width solid * height solid) →
  spans (snapshot_map F solid) !! j = spans solid !! j.
Proof.
  intros Hout. unfold snapshot_map. simpl. rewrite list_lookup_imap.
  destruct (spans solid !! j) as [c|]; simpl; [|done].
  destruct (Z.ltb_spec 0 (width solid)); simpl; [|done].
  destruct (Z.ltb_spec (Z.of_nat j) (width solid * height solid));
    [|done].
  exfalso. by apply Hout.
Qed.

Lemma snapshot_map_empty_grid F solid :
  width solid ≤ 0 ∨ height solid ≤ 0 → snapshot_map F solid = solid.
Proof.
  intros Hempty.
  assert (spans (snapshot_map F solid) = spans solid) as E.
  { apply list_eq. intros j. apply snapshot_map_lookup_outside. nia. }
  destruct solid as [w h l]. unfold snapshot_map in *. simpl in *.
  by rewrite E.
Qed.

Lemma snapshot_map_id F solid :
  (∀ x y c, F x y c = c) → snapshot_map F solid = solid.
Proof.
  intros E. destruct solid as [w h l]. unfold snapshot_map. simpl.
  f_equal. apply list_eq. intros j. rewrite list_lookup_imap.
  destruct (l !! j) as [c|]; simpl; [|done].
  destruct (_ && _); by rewrite ?E.
Qed.

Lemma chain_map_ext f g (c : list rcSpan) :
  (∀ s top, f s top = g s top) → chain_map f c = chain_map g c.
Proof. intros E. induction c as [|s c IH]; simpl; [done|]. by rewrite E, IH. Qed.

Lemma chain_map_compose f g (c : list rcSpan) :
  (∀ s top, geom (g s top) = geom s) →
  chain_map f (chain_map g c) = chain_map (λ s top, f (g s top) top) c.
Proof.
  intros Hg. induction c as [|s c IH]; simpl; [done|].
  rewrite IH. f_equal.
  by rewrite (next_smin_geom (chain_map g c) c) by by apply chain_map_geom.
Qed.

Lemma from_option_smin_chains st solid i k :
  chains st = chains solid →
  from_option smin MAX_HEIGHT (span_at st i k)
  = from_option smin MAX_HEIGHT (span_at solid i k).
Proof.
  intros E. unfold span_at.
  pose proof (chains_column st solid i E) as Ec.
  assert (map geom (column st i) !! k = map geom (column solid i) !! k)
    as El by by rewrite Ec.
  rewrite !list_lookup_fmap in El.
  destruct (column st i !! k), (column solid i !! k); simpl in *;
    try done. by injection El.
Qed.

Lemma smax_chains st solid i k s :
  chains st = chains solid →
  span_at st i k = Some s →
  ∃ s0, span_at solid i k = Some s0 ∧ geom s0 = geom s.
Proof.
  intros E Hs. unfold span_at in *.
  pose proof (chains_column st solid i E) as Ec.
  assert (map geom (column st i) !! k = map geom (column solid i) !! k)
    as El by by rewrite Ec.
  rewrite !list_lookup_fmap, Hs in El.
  destruct (column solid i !! k) as [s0|]; simpl in *; [|done].
  exists s0. split; [done|]. congruence.
Qed.

(** ** The passes as snapshot maps, composed *)

Section Passes.
Context {hdr : RecastHeader}.

Lemma write_area_twice a b s : write_area a (write_area b s) = write_area a s.
Proof. reflexivity. Qed.

Lemma ledge_decide_chains wh wc w h st solid x y s top :
  chains st = chains solid →
  ledge_decide wh wc w h st x y s top
  = ledge_decide wh wc w h solid x y s top.
Proof.
  intros E. unfold ledge_decide.
  by rewrite (ledge_scan_chains _ _ _ _ st solid).
Qed.

(** The ledge decisions in a store with the chains of [solid] are those in
    [solid]. *)
Lemma ledge_snapshot_over wh wc st solid :
  width st = width solid → height st = height solid →
  chains st = chains solid →
  ledge_snapshot wh wc st
  = snapshot_map
      (λ x y, chain_map (ledge_decide wh wc (width solid) (height solid)
                                      solid x y))
      st.
Proof.
  intros Hw Hh Hc. unfold ledge_snapshot. rewrite Hw, Hh.
  apply snapshot_map_ext. intros x y c. apply chain_map_ext.
  intros. by apply ledge_decide_chains.
Qed.

Lemma ledge_decide_twice wh wc w h solid x y s top :
  ledge_decide wh wc w h solid x y
    (ledge_decide wh wc w h solid x y s top) top
  = ledge_decide wh wc w h solid x y s top.
Proof.
  unfold ledge_decide.
  destruct (area s =? RC_NULL_AREA) eqn:E; [by rewrite E|].
  destruct (ledge_marks _ _) eqn:Em; simpl.
  - by rewrite Z.eqb_refl.
  - by rewrite E, Em.
Qed.

Lemma ledge_decide_lowHeight wh wh' wc w h solid x y s top :
  ledge_decide wh wc w h solid x y (lowHeight_decide wh' s top) top
  = lowHeight_decide wh' (ledge_decide wh wc w h solid x y s top) top.
Proof.
  unfold ledge_decide, lowHeight_decide.
  destruct (top - smax s <=? wh') eqn:El; simpl.
  - rewrite Z.eqb_refl.
    destruct (area s =? RC_NULL_AREA); [by rewrite El|].
    destruct (ledge_marks _ _); simpl; by rewrite El.
  - destruct (area s =? RC_NULL_AREA); [by rewrite El|].
    destruct (ledge_marks _ _); simpl; by rewrite El.
Qed.

Lemma lowHeight_decide_twice wh wh' s top :
  lowHeight_decide wh' (lowHeight_decide wh s top) top
  = lowHeight_decide (Z.max wh wh') s top.
Proof.
  unfold lowHeight_decide.
  destruct (top - smax s <=? wh) eqn:E1; simpl;
    destruct (top - smax s <=? wh') eqn:E2; simpl;
    destruct (Z.leb_spec (top - smax s) (Z.max wh wh')); try done;
    rewrite ?Z.leb_le, ?Z.leb_gt in E1, E2; lia.
Qed.

Lemma ledge_snapshot_idem wh wc solid :
  ledge_snapshot wh wc (ledge_snapshot wh wc solid)
  = ledge_snapshot wh wc solid.
Proof.
  rewrite (ledge_snapshot_over wh wc (ledge_snapshot wh wc solid) solid);
    try done.
  - unfold ledge_snapshot at 1 2. apply snapshot_map_idem.
    intros x y c. apply chain_map_idem.
    + intros. apply ledge_decide_geom.
    + intros. apply ledge_decide_twice.
  - apply chains_snapshot_map. intros. apply chain_map_geom. intros.
    apply ledge_decide_geom.
Qed.

(** The ledge pass after the clearance pass is the clearance pass after
    the ledge pass, as snapshot maps. *)
Lemma ledge_snapshot_lowHeight wh wh' wc solid :
  ledge_snapshot wh wc
    (snapshot_map (λ _ _, chain_map (lowHeight_decide wh')) solid)
  = snapshot_map (λ _ _, chain_map (lowHeight_decide wh'))
      (ledge_snapshot wh wc solid).
Proof.
  rewrite (ledge_snapshot_over wh wc _ solid); try done.
  - unfold ledge_snapshot. rewrite !snapshot_map_compose.
    apply snapshot_map_ext. intros x y c.
    rewrite !chain_map_compose
      by (intros; apply lowHeight_decide_geom || apply ledge_decide_geom).
    apply chain_map_ext. intros. apply ledge_decide_lowHeight.
  - apply chains_snapshot_map. intros.
    apply chain_map_geom, lowHeight_decide_geom.
Qed.

Lemma low_chain_no_climb wc (c : list rcSpan) : ∀ prev,
  wc < 0 → low_chain wc prev c = c.
Proof.
  induction c as [|s c IH]; intros prev Hwc; simpl; [done|].
  rewrite IH by done. f_equal. unfold low_decide.
  destruct prev as [p|]; [|done].
  destruct (Z.leb_spec (Z.abs (smax s - smax p)) wc); [lia|].
  by rewrite andb_false_r.
Qed.

Lemma running_min_lower lo l : ∀ a,
  lo ≤ a → Forall (λ v, lo ≤ v) l → lo ≤ running_min a l.
Proof.
  unfold running_min.
  induction l as [|v l IH]; intros a Ha Hl; simpl; [done|].
  apply Forall_cons in Hl as [Hv Hl]. apply IH; [lia|done].
Qed.

Lemma running_min_upper l : ∀ a, running_min a l ≤ a.
Proof.
  unfold running_min.
  induction l as [|v l IH]; intros a; simpl; [lia|].
  specialize (IH (Z.min a v)). lia.
Qed.

Lemma running_max_upper hi l : ∀ a,
  a ≤ hi → Forall (λ v, v ≤ hi) l → running_max a l ≤ hi.
Proof.
  unfold running_max.
  induction l as [|v l IH]; intros a Ha Hl; simpl; [done|].
  apply Forall_cons in Hl as [Hv Hl]. apply IH; [lia|done].
Qed.

Lemma running_max_lower l : ∀ a, a ≤ running_max a l.
Proof.
  unfold running_max.
  induction l as [|v l IH]; intros a; simpl; [lia|].
  specialize (IH (Z.max a v)). lia.
Qed.

End Passes.

Section MoreLemmas.
Context {hdr : RecastHeader}.

Lemma lowHanging_keeps wc solid :
  width (rcFilterLowHangingWalkableObstacles wc solid) = width solid
  ∧ height (rcFilterLowHangingWalkableObstacles wc solid) = height solid
  ∧ chains (rcFilterLowHangingWalkableObstacles wc solid) = chains solid.
Proof.
  rewrite lowHanging_snapshot. split_and!; try done.
  apply chains_snapshot_map. intros. apply low_chain_geom.
Qed.

Lemma lowHeight_keeps wh solid :
  width (rcFilterWalkableLowHeightSpans wh solid) = width solid
  ∧ height (rcFilterWalkableLowHeightSpans wh solid) = height solid
  ∧ chains (rcFilterWalkableLowHeightSpans wh solid) = chains solid.
Proof.
  rewrite lowHeight_snapshot. split_and!; try done.
  apply chains_snapshot_map. intros.
  apply chain_map_geom, lowHeight_decide_geom.
Qed.

(** A column of a snapshot map is the column it had or [F] of it. *)
Lemma column_snapshot_map_cases F solid i :
  column (snapshot_map F solid) i = column solid i
  ∨ ∃ x y, column (snapshot_map F solid) i = F x y (column solid i)
           ∧ spans solid !! Z.to_nat i = Some (column solid i).
Proof.
  unfold column, snapshot_map. simpl. rewrite list_lookup_imap.
  destruct (spans solid !! Z.to_nat i) as [c|]; simpl; [|by left].
  destruct (_ && _); [|by left]. right. by eexists _, _.
Qed.

(** The second pass over a column sees the first pass's result below. *)
Lemma lowHanging_twice_span_after wc solid x y k :
  in_grid (width solid) (height solid) x y →
  span_at (rcFilterLowHangingWalkableObstacles wc
             (rcFilterLowHangingWalkableObstacles wc solid))
          (x + y * width solid) (S k)
  = low_decide wc
      (span_at (rcFilterLowHangingWalkableObstacles wc solid)
               (x + y * width solid) k)
    <$> span_at (rcFilterLowHangingWalkableObstacles wc solid)
                (x + y * width solid) (S k).
Proof.
  intros Hg.
  destruct (lowHanging_keeps wc solid) as (Hw & Hh & _).
  pose proof (lowHanging_span_after wc
                (rcFilterLowHangingWalkableObstacles wc solid) x y (S k))
    as H.
  rewrite Hw, Hh in H. by apply H.
Qed.

Lemma lowHeight_after_lowHanging wh wc solid x y k :
  in_grid (width solid) (height solid) x y →
  span_at (rcFilterWalkableLowHeightSpans wh
             (rcFilterLowHangingWalkableObstacles wc solid))
          (x + y * width solid) k
  = (λ s, lowHeight_decide wh s
            (from_option smin MAX_HEIGHT
               (span_at solid (x + y * width solid) (S k))))
    <$> span_at (rcFilterLowHangingWalkableObstacles wc solid)
                (x + y * width solid) k.
Proof.
  intros Hg.
  destruct (lowHanging_keeps wc solid) as (Hw & Hh & Hc).
  pose proof (lowHeight_span_after wh
                (rcFilterLowHangingWalkableObstacles wc solid) x y k) as H.
  rewrite Hw, Hh in H. rewrite H by done.
  by rewrite (from_option_smin_chains _ solid).
Qed.

Lemma lowHanging_after_lowHeight wh wc solid x y k :
  in_grid (width solid) (height solid) x y →
  span_at (rcFilterLowHangingWalkableObstacles wc
             (rcFilterWalkableLowHeightSpans wh solid))
          (x + y * width solid) (S k)
  = low_decide wc
      (span_at (rcFilterWalkableLowHeightSpans wh solid)
               (x + y * width solid) k)
    <$> span_at (rcFilterWalkableLowHeightSpans wh solid)
                (x + y * width solid) (S k).
Proof.
  intros Hg.
  destruct (lowHeight_keeps wh solid) as (Hw & Hh & _).
  pose proof (lowHanging_span_after wc
                (rcFilterWalkableLowHeightSpans wh solid) x y (S k)) as H.
  rewrite Hw, Hh in H. by apply H.
Qed.

End MoreLemmas.

Section Extras.
Context {hdr : RecastHeader}.

(** X1.  The ledge pass only removes: every span of the heightfield, in
    any column, is after the pass the span it was, or it was walkable
    and has become not walkable.  A span that is not walkable is never
    touched. *)
Theorem ledge_only_removes wh wc solid i k s' :
  span_at (rcFilterLedgeSpans wh wc solid) i k = Some s' →
  ∃ s, span_at solid i k = Some s
       ∧ (s' = s
          ∨ (area s ≠ RC_NULL_AREA ∧ s' = write_area RC_NULL_AREA s)).
Proof.
  unfold span_at. rewrite ledge_snapshot_eq. unfold ledge_snapshot.
  destruct (column_snapshot_map_cases
    (λ x y, chain_map (ledge_decide wh wc (width solid) (height solid)
                                    solid x y)) solid i)
    as [->|(x & y & -> & _)].
  - intros Hs. exists s'. by split; [|left].
  - rewrite chain_map_lookup.
    destruct (column solid i !! k) as [s|]; simpl; [|done].
    intros [= <-]. exists s. split; [done|].
    unfold ledge_decide. destruct (Z.eqb_spec (area s) RC_NULL_AREA);
      [by left|].
    destruct (ledge_marks _ _); [by right|by left].
Qed.

(** X2.  The ledge pass is idempotent: a second run with the same
    parameters changes nothing. *)
Theorem ledge_idempotent wh wc solid :
  rcFilterLedgeSpans wh wc (rcFilterLedgeSpans wh wc solid)
  = rcFilterLedgeSpans wh wc solid.
Proof. rewrite !ledge_snapshot_eq. apply ledge_snapshot_idem. Qed.

(** X3.  The ledge pass and the clearance pass commute, whatever their
    parameters. *)
Theorem ledge_clearance_commute wh wh' wc solid :
  rcFilterLedgeSpans wh wc (rcFilterWalkableLowHeightSpans wh' solid)
  = rcFilterWalkableLowHeightSpans wh' (rcFilterLedgeSpans wh wc solid).
Proof.
  rewrite !ledge_snapshot_eq, !lowHeight_snapshot.
  apply ledge_snapshot_lowHeight.
Qed.

(** X4.  Two clearance passes in a row are one clearance pass with the
    larger of the two heights. *)
Theorem lowHeight_compose wh wh' solid :
  rcFilterWalkableLowHeightSpans wh'
    (rcFilterWalkableLowHeightSpans wh solid)
  = rcFilterWalkableLowHeightSpans (Z.max wh wh') solid.
Proof.
  rewrite !lowHeight_snapshot, snapshot_map_compose.
  apply snapshot_map_ext. intros _ _ c.
  rewrite chain_map_compose by apply lowHeight_decide_geom.
  apply chain_map_ext. intros. apply lowHeight_decide_twice.
Qed.

(** X5.  After the ledge pass followed by the clearance pass, running
    either of the two again changes nothing: every span left walkable
    passes both tests. *)
Theorem ledge_then_clearance_stable wh wc solid :
  let final :=
    rcFilterWalkableLowHeightSpans wh (rcFilterLedgeSpans wh wc solid) in
  rcFilterLedgeSpans wh wc final = final
  ∧ rcFilterWalkableLowHeightSpans wh final = final.
Proof.
  intros final. unfold final. split.
  - rewrite !ledge_snapshot_eq, !lowHeight_snapshot.
    by rewrite ledge_snapshot_lowHeight, ledge_snapshot_idem.
  - rewrite !lowHeight_snapshot, snapshot_map_compose.
    apply snapshot_map_ext. intros _ _ c.
    rewrite chain_map_compose by apply lowHeight_decide_geom.
    apply chain_map_ext. intros.
    by rewrite lowHeight_decide_twice, Z.max_id.
Qed.

(** X6.  The low-hanging-obstacle pass climbs one span per run: above a
    walkable span [a], of two consecutive spans [b] and [c] that are not
    walkable and each within [walkableClimb] of the span below, the first
    run rescues [b] only and a second run rescues [c] too, with the area
    of [a]. *)
Theorem lowHanging_second_pass wc solid x y k a b c :
  let i := x + y * width solid in
  let once := rcFilterLowHangingWalkableObstacles wc solid in
  let twice := rcFilterLowHangingWalkableObstacles wc once in
  in_grid (width solid) (height solid) x y →
  span_at solid i k = Some a →
  span_at solid i (S k) = Some b →
  span_at solid i (S (S k)) = Some c →
  area a ≠ RC_NULL_AREA → area b = RC_NULL_AREA → area c = RC_NULL_AREA →
  Z.abs (smax b - smax a) ≤ wc →
  Z.abs (smax c - smax b) ≤ wc →
  span_at once i (S (S k)) = Some c
  ∧ span_at twice i (S (S k)) = Some (write_area (area a) c).
Proof.
  intros i once twice Hg Ha Hb Hc Hwa Hwb Hwc Hab Hbc.
  apply Z.eqb_neq in Hwa as Hwa'.
  apply Z.leb_le in Hab. apply Z.leb_le in Hbc.
  assert (span_at once i (S k) = Some (write_area (area a) b)) as Hb1.
  { unfold once, i. rewrite lowHanging_span_after by done. fold i.
    rewrite Ha, Hb. simpl. by rewrite Hwb, Z.eqb_refl, Hwa', Hab. }
  assert (span_at once i (S (S k)) = Some c) as Hc1.
  { unfold once, i. rewrite lowHanging_span_after by done. fold i.
    rewrite Hb, Hc. simpl. by rewrite Hwb, Hwc, Z.eqb_refl. }
  split; [done|].
  unfold twice, once, i. rewrite lowHanging_twice_span_after by done.
  fold i once. rewrite Hb1, Hc1. simpl.
  by rewrite Hwc, Z.eqb_refl, Hwa', Hbc.
Qed.

(** X7.  The clearance pass and the low-hanging-obstacle pass do not
    commute.  Let [a] be a walkable span with at most [walkableHeight] of
    clearance and [b] the span above it, not walkable, its top within
    [walkableClimb] of the top of [a] and with more than [walkableHeight]
    of clearance.  Clearance first leaves [b] not walkable; clearance
    last leaves [b] walkable with the area of [a]. *)
Theorem clearance_lowHanging_order wh wc solid x y k a b :
  let i := x + y * width solid in
  let clear := rcFilterWalkableLowHeightSpans wh in
  let low := rcFilterLowHangingWalkableObstacles wc in
  in_grid (width solid) (height solid) x y →
  span_at solid i k = Some a →
  span_at solid i (S k) = Some b →
  area a ≠ RC_NULL_AREA → area b = RC_NULL_AREA →
  smin b - smax a ≤ wh →
  wh < from_option smin MAX_HEIGHT (span_at solid i (S (S k))) - smax b →
  Z.abs (smax b - smax a) ≤ wc →
  span_at (low (clear solid)) i (S k) = Some b
  ∧ span_at (clear (low solid)) i (S k) = Some (write_area (area a) b).
Proof.
  intros i clear low Hg Ha Hb Hwa Hwb Hlow Hhigh Hab.
  apply Z.eqb_neq in Hwa as Hwa'. apply Z.leb_le in Hab.
  apply Z.leb_le in Hlow. apply Z.leb_gt in Hhigh.
  split.
  - unfold low, clear, i. rewrite lowHanging_after_lowHeight by done.
    rewrite !lowHeight_span_after by done. fold i.
    rewrite Ha, Hb. simpl. unfold lowHeight_decide. simpl.
    rewrite Hlow, Hhigh. simpl. by rewrite Hwb, !Z.eqb_refl.
  - unfold low, clear, i. rewrite lowHeight_after_lowHanging by done.
    rewrite lowHanging_span_after by done. fold i.
    rewrite Ha, Hb. simpl.
    rewrite Hwb, Z.eqb_refl, Hwa', Hab. simpl.
    unfold lowHeight_decide. simpl. by rewrite Hhigh.
Qed.

(** X8.  In a cell with a direction that leaves the grid, every walkable
    span whose top is above 0 is marked not walkable by the ledge pass,
    whatever the neighbours and [walkableHeight] are, for every
    [walkableClimb] for which [-walkableClimb] and [-walkableClimb - bot]
    fit a 32-bit [int]. *)
Theorem ledge_border_marked wh wc solid x y k s dir :
  let w := width solid in
  let h := height solid in
  let i := x + y * w in
  in_grid w h x y →
  span_at solid i k = Some s →
  area s ≠ RC_NULL_AREA →
  0 < smax s →
  fits_int (- wc) →
  fits_int (- wc - smax s) →
  dir ∈ seqZ 0 4 →
  inside w h x y dir = false →
  span_at (rcFilterLedgeSpans wh wc solid) i k
  = Some (write_area RC_NULL_AREA s).
Proof.
  intros w h i Hg Hs Ha Hpos Hneg Hsub Hdir Hout.
  unfold i, w. rewrite ledge_span_after by done. fold w h i.
  rewrite Hs. simpl. unfold ledge_decide.
  apply Z.eqb_neq in Ha as ->.
  replace (ledge_marks wc _) with true; [done|].
  symmetry. apply ledge_marks_rule; [done..|]. left.
  apply running_min_lt. right. apply Exists_exists.
  exists (- wc - smax s). split; [|lia].
  unfold drops. apply list_elem_of_bind. exists dir. split; [|done].
  unfold dir_drops. rewrite (neighbour_outside _ _ _ _ _ _ Hout).
  by apply list_elem_of_singleton.
Qed.

(** X9.  The scan keeps [asmin <= bot <= asmax], and neither is further
    than [walkableClimb] from [bot] (at [bot] itself when [walkableClimb]
    is negative); [minh] never exceeds [MAX_HEIGHT]. *)
Theorem ledge_scan_bounds wh wc w h solid x y bot top :
  let sc := ledge_scan wh wc w h solid x y bot top in
  asmin sc ≤ bot ≤ asmax sc
  ∧ bot - asmin sc ≤ Z.max 0 wc
  ∧ asmax sc - bot ≤ Z.max 0 wc
  ∧ minh sc ≤ MAX_HEIGHT.
Proof.
  intros sc. unfold sc, ledge_scan. rewrite ledge_scan_dirs_spec.
  cbn [minh asmin asmax].
  set (hs := accessible_heights false wh wc w h solid x y bot top
               (seqZ 0 4)).
  assert (Forall (λ v, bot - Z.max 0 wc ≤ v) hs
          ∧ Forall (λ v, v ≤ bot + Z.max 0 wc) hs) as [Hlo Hhi].
  { split; apply Forall_forall; intros v Hv;
      apply accessible_heights_surfaces in Hv as (c & _ & _ & Habs); lia. }
  pose proof (running_min_upper hs bot).
  pose proof (running_max_lower hs bot).
  pose proof (running_min_lower (bot - Z.max 0 wc) hs bot ltac:(lia) Hlo).
  pose proof (running_max_upper (bot + Z.max 0 wc) hs bot ltac:(lia) Hhi).
  pose proof (running_min_upper
                (folded wh wc w h solid x y bot top (seqZ 0 4)) MAX_HEIGHT).
  lia.
Qed.

(** X10.  With an empty grid ([width <= 0] or [height <= 0]) each of the
    three filters returns the heightfield as it is. *)
Theorem filters_empty_grid wh wc solid :
  width solid ≤ 0 ∨ height solid ≤ 0 →
  rcFilterLowHangingWalkableObstacles wc solid = solid
  ∧ rcFilterLedgeSpans wh wc solid = solid
  ∧ rcFilterWalkableLowHeightSpans wh solid = solid.
Proof.
  intros Hempty.
  rewrite lowHanging_snapshot, ledge_snapshot_eq, lowHeight_snapshot.
  unfold ledge_snapshot. split_and!; by apply snapshot_map_empty_grid.
Qed.

(** X11.  With a negative [walkableClimb] the low-hanging-obstacle pass
    rescues nothing: it returns the heightfield as it is. *)
Theorem lowHanging_no_climb wc solid :
  wc < 0 → rcFilterLowHangingWalkableObstacles wc solid = solid.
Proof.
  intros Hwc. rewrite lowHanging_snapshot. apply snapshot_map_id.
  intros _ _ c. by apply low_chain_no_climb.
Qed.

(** X12.  Level ground is no ledge.  With [0 <= walkableHeight] and
    [0 <= walkableClimb], a walkable span all of whose four neighbour
    columns are inside the grid and hold a single span with the same top
    is left as it is by the ledge pass. *)
Theorem ledge_level_floor_kept wh wc solid x y k s :
  let w := width solid in
  let h := height solid in
  let i := x + y * w in
  in_grid w h x y →
  span_at solid i k = Some s →
  0 ≤ wh → 0 ≤ wc →
  (∀ dir, dir ∈ seqZ 0 4 →
     ∃ n, neighbour w h solid x y dir = Some [n]
          ∧ smin n ≤ smax s ∧ smax n = smax s) →
  span_at (rcFilterLedgeSpans wh wc solid) i k = Some s.
Proof.
  intros w h i Hg Hs Hwh Hwc Hlevel.
  unfold i, w. rewrite ledge_span_after by done. fold w h i.
  rewrite Hs. simpl. unfold ledge_decide.
  destruct (area s =? RC_NULL_AREA); [done|].
  replace (ledge_marks wc _) with false; [done|].
  symmetry. apply not_true_is_false.
  set (top := from_option smin MAX_HEIGHT (span_at solid i (S k))).
  (* what one direction folds into the scan *)
  assert (∀ dir, dir ∈ seqZ 0 4 →
            Forall (λ v, v = 0)
              (dir_folded wh wc w h solid x y (smax s) top dir)
            ∧ Forall (λ v, v = smax s)
                (dir_accessible false wh wc w h solid x y (smax s) top dir))
    as Hdir.
  { intros dir Hd. destruct (Hlevel dir Hd) as (n & Hn & Hlo & Htop).
    unfold dir_folded, dir_accessible. rewrite Hn. simpl.
    replace (sufficient wh (smax s) top (int_neg wc, smin n))
      with false
      by (symmetry; unfold sufficient; simpl;
          rewrite Z.gtb_ltb; apply Z.ltb_ge; lia).
    rewrite filter_sufficient_cons.
    destruct (sufficient _ _ _ _); simpl.
    - rewrite filter_accessible_cons.
      split; [repeat constructor; lia|].
      destruct (accessible _ _ _); simpl; repeat constructor; done.
    - split; constructor. }
  assert (Forall (λ v, v = 0)
            (folded wh wc w h solid x y (smax s) top (seqZ 0 4))
          ∧ Forall (λ v, v = smax s)
              (accessible_heights false wh wc w h solid x y (smax s) top
                 (seqZ 0 4))) as [Hdrops Hacc].
  { unfold folded, accessible_heights. rewrite !Forall_bind.
    split; apply Forall_forall; intros dir Hd; simpl;
      by destruct (Hdir dir Hd). }
  unfold ledge_scan.
  rewrite ledge_marks_true, ledge_scan_dirs_spec. cbn [minh asmin asmax].
  rewrite (running_min_const _ (smax s)), (running_max_const _ (smax s))
    by done.
  rewrite running_min_lt, int_neg_nonneg by done.
  intros [[Hlt|Hex]|Hsteep]; [| |lia].
  - unfold MAX_HEIGHT in Hlt. lia.
  - apply Exists_exists in Hex as (v & Hv & Hlt).
    rewrite Forall_forall in Hdrops. rewrite (Hdrops v Hv) in Hlt. lia.
Qed.

(** X13.  The low-hanging-obstacle pass and the clearance pass do not
    depend on the order in which the columns are visited either. *)
Theorem column_order_irrelevant wh wc solid cells :
  cells ≡ₚ row_major (width solid) (height solid) →
  lowHanging_visit wc cells solid
  = rcFilterLowHangingWalkableObstacles wc solid
  ∧ lowHeight_visit wh cells solid
    = rcFilterWalkableLowHeightSpans wh solid.
Proof.
  intros Hp.
  unfold lowHanging_visit, lowHeight_visit,
    rcFilterLowHangingWalkableObstacles, rcFilterWalkableLowHeightSpans.
  rewrite !for_each_cell_visit. split.
  - apply (visit_cells_perm _ _ _ (λ _ _, low_chain wc None) (λ _, True));
      auto.
    + intros. apply lowHanging_column_spec.
    + intros. apply low_chain_geom.
  - apply (visit_cells_perm _ _ _
             (λ _ _, chain_map (lowHeight_decide wh)) (λ _, True)); auto.
    + intros. apply lowHeight_column_spec.
    + intros. apply chain_map_geom, lowHeight_decide_geom.
Qed.

End Extras.

(** ** The further properties at concrete heightfields *)

Lemma ledge_only_removes_witness :
  ∃ s, span_at scene_order 0 0 = Some s
       ∧ (Span 0 1 0 = s
          ∨ (area s ≠ RC_NULL_AREA (RecastHeader := recast_h)
             ∧ Span 0 1 0 = write_area 0 s)).
Proof.
  apply (ledge_only_removes (hdr := recast_h) 1 4 scene_order 0 0
           (Span 0 1 0)).
  by vm_compute.
Defined.

Lemma lowHanging_second_pass_witness :
  span_at (rcFilterLowHangingWalkableObstacles (hdr := recast_h) 1
             scene_hop) 0 2 = Some (Span 1 2 0)
  ∧ span_at (rcFilterLowHangingWalkableObstacles (hdr := recast_h) 1
               (rcFilterLowHangingWalkableObstacles (hdr := recast_h) 1
                  scene_hop)) 0 2 = Some (Span 1 2 1).
Proof.
  pose proof (lowHanging_second_pass (hdr := recast_h) 1 scene_hop 0 0 0
                (Span 0 0 1) (Span 0 1 0) (Span 1 2 0)) as H.
  simpl in H.
  apply H; [by unfold in_grid|by vm_compute..|discriminate|reflexivity
           |reflexivity|lia|lia].
Defined.

Lemma clearance_lowHanging_order_witness :
  span_at (rcFilterLowHangingWalkableObstacles (hdr := recast_h) 2
             (rcFilterWalkableLowHeightSpans (hdr := recast_h) 1
                scene_shelf)) 0 1 = Some (Span 2 3 0)
  ∧ span_at (rcFilterWalkableLowHeightSpans (hdr := recast_h) 1
               (rcFilterLowHangingWalkableObstacles (hdr := recast_h) 2
                  scene_shelf)) 0 1 = Some (Span 2 3 1).
Proof.
  pose proof (clearance_lowHanging_order (hdr := recast_h) 1 2 scene_shelf
                0 0 0 (Span 0 1 1) (Span 2 3 0)) as H.
  simpl in H.
  apply H; [by unfold in_grid|by vm_compute..|discriminate|reflexivity
           |lia|unfold MAX_HEIGHT; lia|lia].
Defined.

Lemma ledge_border_marked_witness :
  span_at (rcFilterLedgeSpans (hdr := recast_h) 1 4 scene_order) 0 0
  = Some (Span 0 1 0).
Proof.
  apply (ledge_border_marked (hdr := recast_h) 1 4 scene_order 0 0 0
           (Span 0 1 1) 0);
    [by unfold in_grid|by vm_compute|discriminate|simpl; lia
    |unfold fits_int; simpl; lia..|by apply elem_of_seqZ|by vm_compute].
Defined.

Lemma filters_empty_grid_witness :
  rcFilterLowHangingWalkableObstacles (hdr := recast_h) 1 scene_void
    = scene_void
  ∧ rcFilterLedgeSpans (hdr := recast_h) 1 1 scene_void = scene_void
  ∧ rcFilterWalkableLowHeightSpans (hdr := recast_h) 1 scene_void
    = scene_void.
Proof.
  apply (filters_empty_grid (hdr := recast_h) 1 1 scene_void).
  left. simpl. lia.
Defined.

Lemma lowHanging_no_climb_witness :
  rcFilterLowHangingWalkableObstacles (hdr := recast_h) (-1) scene_hop
  = scene_hop.
Proof.
  apply (lowHanging_no_climb (hdr := recast_h) (-1) scene_hop). lia.
Defined.

Lemma ledge_level_floor_kept_witness :
  span_at (rcFilterLedgeSpans (hdr := recast_h) 1 1 scene_flat) (1 + 1 * 3) 0
  = Some (Span 0 1 1).
Proof.
  apply (ledge_level_floor_kept (hdr := recast_h) 1 1 scene_flat 1 1 0
           (Span 0 1 1)); [by unfold in_grid|by vm_compute|lia|lia|].
  intros dir Hd. exists (Span 0 1 1).
  apply elem_of_seqZ in Hd.
  assert (dir = 0 ∨ dir = 1 ∨ dir = 2 ∨ dir = 3)
    as [-> | [-> | [-> | ->]]] by lia; by vm_compute.
Defined.

Lemma column_order_irrelevant_witness :
  lowHanging_visit (hdr := recast_h) 4 (reverse (row_major 3 3))
    scene_order
  = rcFilterLowHangingWalkableObstacles (hdr := recast_h) 4 scene_order
  ∧ lowHeight_visit (hdr := recast_h) 1 (reverse (row_major 3 3))
      scene_order
    = rcFilterWalkableLowHeightSpans (hdr := recast_h) 1 scene_order.
Proof.
  apply (column_order_irrelevant (hdr := recast_h) 1 4 scene_order).
  apply reverse_Permutation.
Defined.
